(** * APReL: query and response data types ([learning/data_types.py])

    A shallow embedding of the query/response classes of the module and of
    the helper [isinteger], together with the properties stated about them.

    Python objects live in a store and are referred to by their address, so
    that a response object and the query it wraps are distinct objects and
    aliasing is visible.  Every method is a computation in a state-and-error
    monad over that store: it returns either a value or the raised
    exception, and the store it leaves behind. *)

From Stdlib Require Import ZArith Floats Ascii String.
From stdpp Require Import base option list fin sorting pretty.

(** The library marks the concatenation of strings as never to be
    simplified; here it computes like any other function. *)
Arguments String.append : clear simpl.

Open Scope Z_scope.

(** ** Exceptions *)

(** The exception classes that the modelled code can raise.  The message of
    an exception is not modelled. *)
Inductive exn :=
  | AssertionError
  | TypeError
  | ValueError
  | AttributeError.

(** ** Collaborators from [basics] *)

(** A state or an action is a one-dimensional float64 array. *)
Definition state := list float.
Definition action := list float.

Module basics.

(** Modelled from the spec: the class [Trajectory] of [basics], which is
    imported but not part of this module.  It is indexable to obtain
    (state, action) pairs, index 0 yields the initial state, and it exposes
    a precomputed feature vector [features]. *)
Record Trajectory := {
  traj_first : state * action;
  traj_rest : list (state * action);
  features : list float
}.

(** [trajectory[0]] *)
Definition Trajectory_getitem0 (t : Trajectory) : state * action := traj_first t.

(** Modelled from the spec: the class [TrajectorySet] of [basics], which is
    imported but not part of this module.  It is constructible from an
    ordered sequence of trajectories and exposes [size], the item count. *)
Record TrajectorySet := { trajectories : list Trajectory }.

Definition size (ts : TrajectorySet) : Z := Z.of_nat (length (trajectories ts)).

(** What a caller can pass where a slate is expected: a [TrajectorySet], a
    list of trajectories, or an object that is neither. *)
Inductive slate_argument :=
  | Slate_TrajectorySet (ts : TrajectorySet)
  | Slate_list (l : list Trajectory)
  | Slate_other.

Definition isinstance_TrajectorySet (s : slate_argument) : bool :=
  match s with Slate_TrajectorySet _ => true | _ => false end.

Definition isinstance_list (s : slate_argument) : bool :=
  match s with Slate_list _ => true | _ => false end.

(** Modelled from the spec: the constructor [TrajectorySet(new_slate)] of
    [basics].  It wraps an ordered sequence of trajectories; a slate that is
    no such sequence is a type error.  The setters below call it only on an
    argument that is not a [TrajectorySet]. *)
Definition TrajectorySet_new (s : slate_argument) : exn + TrajectorySet :=
  match s with
  | Slate_list l => inr {| trajectories := l |}
  | _ => inl TypeError
  end.

End basics.

(** ** numpy and itertools *)

(** Integer arrays of one or two dimensions; a two-dimensional array is the
    list of its rows. *)
Inductive ndarray :=
  | Array1 (a : list Z)
  | Array2 (rows : list (list Z)).

(** [np.arange(k)]: the integers [0, 1, ..., k-1]; empty when [k <= 0]. *)
Definition np_arange (k : Z) : list Z := Z.of_nat <$> seq 0 (Z.to_nat k).

(** [select pool] lists, in the order of the positions of [pool], every
    element together with the elements that remain once it is removed. *)
Fixpoint select {A} (pool : list A) : list (A * list A) :=
  match pool with
  | [] => []
  | x :: xs => (x, xs) :: ((fun '(y, ys) => (y, x :: ys)) <$> select xs)
  end.

(** [itertools.permutations(pool, r)]: the [r]-length permutations of the
    elements of [pool], emitted in lexicographic order of their positions in
    [pool]. *)
Fixpoint permutations_r {A} (r : nat) (pool : list A) : list (list A) :=
  match r with
  | O => [[]]
  | S r' => '(x, rest) ← select pool; cons x <$> permutations_r r' rest
  end.

(** [itertools.permutations(pool)]: [r] defaults to the length of the pool. *)
Definition itertools_permutations {A} (pool : list A) : list (list A) :=
  permutations_r (length pool) pool.

(** Elementwise [a == l] of two one-dimensional operands under numpy's
    broadcasting rule: the lengths agree, or one of them is 1.  [None] when
    the shapes cannot be broadcast together. *)
Definition eq_broadcast (a l : list Z) : option (list bool) :=
  if (length a =? length l)%nat then Some (zip_with Z.eqb a l)
  else match l, a with
       | [y], _ => Some (map (fun x => Z.eqb x y) a)
       | _, [x] => Some (map (fun y => Z.eqb x y) l)
       | _, _ => None
       end.

Definition any (bs : list bool) : bool := existsb id bs.

(** [r in arr] for an integer [r]: [(arr == r).any()]. *)
Definition array_contains_int (arr : ndarray) (r : Z) : bool :=
  match arr with
  | Array1 a => any (map (fun x => Z.eqb x r) a)
  | Array2 rows => any (map (fun x => Z.eqb x r) (concat rows))
  end.

(** [l in arr] for a list of integers [l]: [(arr == l).any()], where the
    comparison broadcasts [l] against [arr] (against each row of a
    two-dimensional [arr]).  When the shapes cannot be broadcast the
    comparison raises [ValueError] (numpy 1.25 and later; earlier versions
    make the comparison [False], so that the enclosing assertion fails). *)
Definition array_contains_list (arr : ndarray) (l : list Z) : exn + bool :=
  match arr with
  | Array1 a =>
      match eq_broadcast a l with
      | Some bs => inr (any bs)
      | None => inl ValueError
      end
  | Array2 rows =>
      match mapM (fun row => eq_broadcast row l) rows with
      | Some bss => inr (any (concat bss))
      | None => inl ValueError
      end
  end.

(** [np.isclose(x, y)] on two float64 scalars, with the default tolerances
    [rtol = 1e-5] and [atol = 1e-8]: finite operands are compared up to the
    tolerance, which is relative to [y]; otherwise they must be equal. *)
Definition rtol : float := 0x1.4f8b588e368f1p-17%float. (* 1e-5 *)
Definition atol : float := 0x1.5798ee2308c3ap-27%float. (* 1e-8 *)

Definition isclose (x y : float) : bool :=
  if (PrimFloat.is_finite x && PrimFloat.is_finite y)%bool
  then PrimFloat.leb (PrimFloat.abs (PrimFloat.sub x y))
                     (PrimFloat.add atol (PrimFloat.mul rtol (PrimFloat.abs y)))
  else PrimFloat.eqb x y.

(** [np.isclose(a, b)] on two one-dimensional arrays, with broadcasting. *)
Definition np_isclose (a b : state) : option (list bool) :=
  if (length a =? length b)%nat then Some (zip_with isclose a b)
  else match a, b with
       | [x], _ => Some (map (fun y => isclose x y) b)
       | _, [y] => Some (map (fun x => isclose x y) a)
       | _, _ => None
       end.

(** [np.all] *)
Definition np_all (bs : list bool) : bool := forallb id bs.

(** ** The object store *)

(** Addresses of objects. *)
Abbreviation loc := nat.

Inductive class :=
  | C_DemonstrationQuery | C_Demonstration
  | C_PreferenceQuery | C_Preference
  | C_WeakComparisonQuery | C_WeakComparison
  | C_FullRankingQuery | C_FullRanking.

(** The value of a response: an integer, as [Preference] and
    [WeakComparison] expect it, or a list of integers, as [FullRanking]
    does. *)
Inductive response_value :=
  | R_int (r : Z)
  | R_list (l : list Z).

(** An object is its class and its attribute dictionary.  The attributes are
    those that the classes of the module assign, each with the type of the
    values assigned to it; [None] is an attribute that is not set.  The
    attribute [a] of an object [o] is [attr.a o]. *)
Module attr.

Record object := {
  class_of : class;
  _slate : option basics.TrajectorySet;
  K : option Z;
  response_set : option ndarray;
  initial_state : option state;
  query : option loc;
  response : option response_value;
  trajectory : option basics.Trajectory;
  features : option (list float)
}.

End attr.

Abbreviation object := attr.object.
Import attr.

Definition empty_object (c : class) : object :=
  {| class_of := c; _slate := None; K := None; response_set := None;
     initial_state := None; query := None; response := None;
     trajectory := None; features := None |}.

Definition with_slate (v : basics.TrajectorySet) (o : object) : object :=
  {| class_of := class_of o; _slate := Some v; K := K o;
     response_set := response_set o; initial_state := initial_state o;
     query := query o; response := response o; trajectory := trajectory o;
     features := features o |}.

Definition with_K (v : Z) (o : object) : object :=
  {| class_of := class_of o; _slate := _slate o; K := Some v;
     response_set := response_set o; initial_state := initial_state o;
     query := query o; response := response o; trajectory := trajectory o;
     features := features o |}.

Definition with_response_set (v : ndarray) (o : object) : object :=
  {| class_of := class_of o; _slate := _slate o; K := K o;
     response_set := Some v; initial_state := initial_state o;
     query := query o; response := response o; trajectory := trajectory o;
     features := features o |}.

Definition with_initial_state (v : state) (o : object) : object :=
  {| class_of := class_of o; _slate := _slate o; K := K o;
     response_set := response_set o; initial_state := Some v;
     query := query o; response := response o; trajectory := trajectory o;
     features := features o |}.

Definition with_query (v : loc) (o : object) : object :=
  {| class_of := class_of o; _slate := _slate o; K := K o;
     response_set := response_set o; initial_state := initial_state o;
     query := Some v; response := response o; trajectory := trajectory o;
     features := features o |}.

Definition with_response (v : response_value) (o : object) : object :=
  {| class_of := class_of o; _slate := _slate o; K := K o;
     response_set := response_set o; initial_state := initial_state o;
     query := query o; response := Some v; trajectory := trajectory o;
     features := features o |}.

Definition with_trajectory (v : basics.Trajectory) (o : object) : object :=
  {| class_of := class_of o; _slate := _slate o; K := K o;
     response_set := response_set o; initial_state := initial_state o;
     query := query o; response := response o; trajectory := Some v;
     features := features o |}.

Definition with_features (v : list float) (o : object) : object :=
  {| class_of := class_of o; _slate := _slate o; K := K o;
     response_set := response_set o; initial_state := initial_state o;
     query := query o; response := response o; trajectory := trajectory o;
     features := Some v |}.

(** The store: the object at address [l] is the [l]-th element.  Objects are
    never deallocated, so a new object takes the next address. *)
Abbreviation heap := (list object).

(** ** Computations *)

Definition M (A : Type) : Type := heap -> (exn + A) * heap.

#[global] Instance M_ret : MRet M := fun A x h => (inr x, h).

#[global] Instance M_bind : MBind M := fun A B f m h =>
  match m h with
  | (inr x, h') => f x h'
  | (inl e, h') => (inl e, h')
  end.

Definition raise {A} (e : exn) : M A := fun h => (inl e, h).

(** [assert b] *)
Definition assert (b : bool) : M unit :=
  if b then mret () else raise AssertionError.

(** A pure operation that may raise. *)
Definition lift {A} (r : exn + A) : M A :=
  match r with inl e => raise e | inr x => mret x end.

(** Object creation: a new object of class [c] without attributes. *)
Definition alloc (c : class) : M loc :=
  fun h => (inr (length h), h ++ [empty_object c]).

(** [l.attr] *)
Definition getattr {A} (attr : object -> option A) (l : loc) : M A :=
  fun h =>
    match h !! l ≫= attr with
    | Some v => (inr v, h)
    | None => (inl AttributeError, h)
    end.

(** [l.attr = v], where [upd] is the update of that attribute to [v].  The
    address of an object comes from [alloc], so it is in the store. *)
Definition setattr (upd : object -> object) (l : loc) : M unit :=
  fun h => (inr (), alter upd l h).

(** ** The classes *)

Module Query.

(** [Query.__init__(self)]: [pass]. *)
Definition __init__ (self : loc) : M unit := mret ().

End Query.

Module QueryWithResponse.

(** [QueryWithResponse.__init__(self, query)].  [surplus] holds the
    positional arguments that the caller passes after [query]: the method
    takes none, and a call with more arguments than parameters raises
    [TypeError] before the body runs. *)
Definition __init__ (self query : loc) (surplus : list response_value) : M unit :=
  match surplus with
  | [] => setattr (with_query query) self
  | _ :: _ => raise TypeError
  end.

End QueryWithResponse.

Module DemonstrationQuery.

Definition __init__ (self : loc) (initial_state : state) : M unit :=
  Query.__init__ self;;
  setattr (with_initial_state initial_state) self.

(** [DemonstrationQuery(initial_state)] *)
Definition new (initial_state : state) : M loc :=
  self ← alloc C_DemonstrationQuery;
  __init__ self initial_state;;
  mret self.

End DemonstrationQuery.

Module Demonstration.

(** [query] is [None] when the argument is omitted. *)
Definition __init__ (self : loc) (trajectory : basics.Trajectory)
    (query : option loc) : M unit :=
  let '(initial_state, _) := basics.Trajectory_getitem0 trajectory in
  query ← match query with
          | None => DemonstrationQuery.new initial_state
          | Some query =>
              given ← getattr attr.initial_state query;
              close ← lift (from_option inr (inl ValueError)
                              (np_isclose given initial_state));
              assert (np_all close);;
              mret query
          end;
  QueryWithResponse.__init__ self query [];;
  setattr (with_trajectory trajectory) self;;
  setattr (with_features (basics.features trajectory)) self.

(** [Demonstration(trajectory, query)] *)
Definition new (trajectory : basics.Trajectory) (query : option loc) : M loc :=
  self ← alloc C_Demonstration;
  __init__ self trajectory query;;
  mret self.

End Demonstration.

(** The first statement of the three slate setters:
    [self._slate = new_slate if isinstance(new_slate, TrajectorySet)
                   else TrajectorySet(new_slate)],
    followed by [self.K = self._slate.size]. *)
Definition assign_slate_and_K (self : loc) (new_slate : basics.slate_argument)
    : M unit :=
  ts ← match new_slate with
       | basics.Slate_TrajectorySet ts => mret ts
       | _ => lift (basics.TrajectorySet_new new_slate)
       end;
  setattr (with_slate ts) self;;
  ts ← getattr attr._slate self;
  setattr (with_K (basics.size ts)) self.

Module PreferenceQuery.

(** The setter of the property [slate]. *)
Definition slate_setter (self : loc) (new_slate : basics.slate_argument)
    : M unit :=
  assign_slate_and_K self new_slate;;
  k ← getattr attr.K self;
  setattr (with_response_set (Array1 (np_arange k))) self.

Definition __init__ (self : loc) (slate : basics.slate_argument) : M unit :=
  Query.__init__ self;;
  assert (basics.isinstance_TrajectorySet slate || basics.isinstance_list slate);;
  slate_setter self slate;;
  k ← getattr attr.K self;
  assert (2 <=? k).

(** [PreferenceQuery(slate)] *)
Definition new (slate : basics.slate_argument) : M loc :=
  self ← alloc C_PreferenceQuery;
  __init__ self slate;;
  mret self.

End PreferenceQuery.

(** [response in arr], for what a caller can pass as a response: the
    annotations of the parameters are not enforced, and numpy compares an
    integer and a list of integers alike. *)
Definition array_contains (arr : ndarray) (response : response_value)
    : exn + bool :=
  match response with
  | R_int r => inr (array_contains_int arr r)
  | R_list l => array_contains_list arr l
  end.

Module Preference.

Definition __init__ (self query : loc) (response : response_value) : M unit :=
  QueryWithResponse.__init__ self query [];;
  q ← getattr attr.query self;
  rs ← getattr attr.response_set q;
  ok ← lift (array_contains rs response);
  assert ok;;
  setattr (with_response response) self.

(** [Preference(query, response)] *)
Definition new (query : loc) (response : response_value) : M loc :=
  self ← alloc C_Preference;
  __init__ self query response;;
  mret self.

End Preference.

Module WeakComparisonQuery.

(** The setter of the property [slate]. *)
Definition slate_setter (self : loc) (new_slate : basics.slate_argument)
    : M unit :=
  assign_slate_and_K self new_slate;;
  setattr (with_response_set (Array1 [-1; 0; 1])) self.

Definition __init__ (self : loc) (slate : basics.slate_argument) : M unit :=
  Query.__init__ self;;
  assert (basics.isinstance_TrajectorySet slate || basics.isinstance_list slate);;
  slate_setter self slate;;
  k ← getattr attr.K self;
  assert (k =? 2).

(** [WeakComparisonQuery(slate)] *)
Definition new (slate : basics.slate_argument) : M loc :=
  self ← alloc C_WeakComparisonQuery;
  __init__ self slate;;
  mret self.

End WeakComparisonQuery.

Module WeakComparison.

(** The call to the parent initializer passes [response] after [query]. *)
Definition __init__ (self query : loc) (response : Z) : M unit :=
  QueryWithResponse.__init__ self query [R_int response];;
  q ← getattr attr.query self;
  rs ← getattr attr.response_set q;
  assert (array_contains_int rs response);;
  setattr (with_response (R_int response)) self.

(** [WeakComparison(query, response)] *)
Definition new (query : loc) (response : Z) : M loc :=
  self ← alloc C_WeakComparison;
  __init__ self query response;;
  mret self.

End WeakComparison.

Module FullRankingQuery.

(** The setter of the property [slate]. *)
Definition slate_setter (self : loc) (new_slate : basics.slate_argument)
    : M unit :=
  assign_slate_and_K self new_slate;;
  k ← getattr attr.K self;
  setattr (with_response_set (Array2 (itertools_permutations (np_arange k)))) self.

Definition __init__ (self : loc) (slate : basics.slate_argument) : M unit :=
  Query.__init__ self;;
  assert (basics.isinstance_TrajectorySet slate || basics.isinstance_list slate);;
  slate_setter self slate;;
  k ← getattr attr.K self;
  assert (2 <=? k).

(** [FullRankingQuery(slate)] *)
Definition new (slate : basics.slate_argument) : M loc :=
  self ← alloc C_FullRankingQuery;
  __init__ self slate;;
  mret self.

End FullRankingQuery.

Module FullRanking.

Definition __init__ (self query : loc) (response : list Z) : M unit :=
  QueryWithResponse.__init__ self query [];;
  q ← getattr attr.query self;
  rs ← getattr attr.response_set q;
  ok ← lift (array_contains_list rs response);
  assert ok;;
  setattr (with_response (R_list response)) self.

(** [FullRanking(query, response)] *)
Definition new (query : loc) (response : list Z) : M loc :=
  self ← alloc C_FullRanking;
  __init__ self query response;;
  mret self.

End FullRanking.

(** ** [isinteger] *)

(** Python text: the sequence of the code points of its characters. *)
Abbreviation text := (list N).

(** The text of a string literal: its characters, by their codes. *)
Definition text_of (s : string) : text := N_of_ascii <$> list_ascii_of_string s.

(** The arguments that [isinteger] is called with: a text, or an object of
    another type. *)
Inductive pyobject :=
  | Py_str (t : text)
  | Py_int (z : Z)
  | Py_float (f : float)
  | Py_None.

(** What [int] takes from the interpreter that runs the module.  Its Unicode
    database tells which characters beyond ASCII are whitespace, and which
    are decimal digits and of which value; [max_str_digits] is the setting
    [sys.get_int_max_str_digits()], the number of digits up to which a text
    is converted, where 0 is no bound (and stands for the interpreters
    before 3.11, which have none). *)
Record interpreter := {
  Py_UNICODE_ISSPACE : N → bool;
  Py_UNICODE_TODECIMAL : N → option (fin 10);
  max_str_digits : N
}.

(** The ASCII digit of a value. *)
Definition ascii_digit (d : fin 10) : ascii := ascii_of_nat (48 + fin_to_nat d).

(** What the integer parser reads in place of a character: an ASCII
    character as it is, another whitespace character as a space, another
    decimal digit as the ASCII digit of its value, and any other character
    as a question mark, with which no literal is read.  (The interpreter
    ends what it reads at the first such question mark, and in a text that
    is not all ASCII it reads the delete character, 127, as one; neither
    changes whether a literal is read, nor which.) *)
Definition to_ascii (py : interpreter) (ch : N) : ascii :=
  if (ch <? 128)%N then ascii_of_N ch
  else if Py_UNICODE_ISSPACE py ch then " "%char
  else match Py_UNICODE_TODECIMAL py ch with
       | Some d => ascii_digit d
       | None => "?"%char
       end.

Definition ascii_image (py : interpreter) (t : text) : string :=
  string_of_list_ascii (to_ascii py <$> t).

(** The ASCII characters that the integer parser skips around a literal:
    space, and tab to carriage return. *)
Definition Py_ISSPACE (c : ascii) : bool :=
  let n := nat_of_ascii c in
  ((n =? 32) || ((9 <=? n) && (n <=? 13)))%nat.

(** The value of an ASCII decimal digit. *)
Definition digit_value (c : ascii) : option Z :=
  let n := nat_of_ascii c in
  if ((48 <=? n) && (n <=? 57))%nat then Some (Z.of_nat n - 48) else None.

Definition is_underscore (c : ascii) : bool := Ascii.eqb c "_".

Fixpoint skip_space (s : string) : string :=
  match s with
  | String c s' => if Py_ISSPACE c then skip_space s' else s
  | EmptyString => s
  end.

(** The scan over the digits and underscores of a literal.  [prev] is the
    character scanned last and [acc] the value of the digits so far; two
    underscores in a row are an error.  The scan stops at the first
    character that is neither, and returns what is left. *)
Fixpoint scan_digits (prev : ascii) (acc : Z) (s : string)
    : option (ascii * Z * string) :=
  match s with
  | String c s' =>
      match digit_value c with
      | Some d => scan_digits c (10 * acc + d) s'
      | None =>
          if is_underscore c
          then (if is_underscore prev then None else scan_digits c acc s')
          else Some (prev, acc, s)
      end
  | EmptyString => Some (prev, acc, s)
  end.

(** The character at the head of [s]; the terminating NUL at its end. *)
Definition peek (s : string) : ascii :=
  match s with
  | String c _ => c
  | EmptyString => "000"%char
  end.

Definition advance (s : string) : string :=
  match s with
  | String _ s' => s'
  | EmptyString => s
  end.

(** The digits of a literal, once the sign is read: no underscore in front,
    the scan, no underscore at the end, at least one character scanned, and
    only whitespace after it. *)
Definition parse_unsigned (s : string) : option Z :=
  if is_underscore (peek s) then None
  else
    match scan_digits "000" 0 s with
    | None => None
    | Some (prev, z, rest) =>
        if is_underscore prev then None
        else if (String.length rest =? String.length s)%nat then None
        else match skip_space rest with
             | EmptyString => Some z
             | String _ _ => None
             end
    end.

(** The integer that a string of ASCII characters is a base-10 literal of:
    leading whitespace, an optional sign, digits with single underscores
    between them, trailing whitespace, and nothing else. *)
Definition parse_int (s : string) : option Z :=
  let s := skip_space s in
  if Ascii.eqb (peek s) "+" then parse_unsigned (advance s)
  else if Ascii.eqb (peek s) "-" then Z.opp <$> parse_unsigned (advance s)
  else parse_unsigned s.

(** The number of the digits of a string. *)
Definition count_digits (s : string) : N :=
  N.of_nat (length (filter (λ c, is_Some (digit_value c))
                      (list_ascii_of_string s))).

(** The number of digits from which the interpreter looks at its bound. *)
Definition _PY_LONG_MAX_STR_DIGITS_THRESHOLD : N := 640.

(** The interpreter refuses to convert a text of [digits] digits. *)
Definition exceeds_max_str_digits (py : interpreter) (digits : N) : bool :=
  ((_PY_LONG_MAX_STR_DIGITS_THRESHOLD <? digits)
   && (0 <? max_str_digits py) && (max_str_digits py <? digits))%N.

(** [int(t)] for a text [t], in base 10: the literal is read in what the
    parser makes of the characters of [t]; a text that is no literal, and
    one with more digits than the interpreter converts, raise
    [ValueError]. *)
Definition int (py : interpreter) (t : text) : exn + Z :=
  let s := ascii_image py t in
  match parse_int s with
  | Some z =>
      if exceeds_max_str_digits py (count_digits s) then inl ValueError
      else inr z
  | None => inl ValueError
  end.

(** The assertion [isinstance(input, str)] holds of a text only; the [try]
    then turns any exception of [int(input)] into [False]. *)
Definition isinteger (py : interpreter) (input : pyobject) : exn + bool :=
  match input with
  | Py_str t =>
      match int py t with
      | inr a => inr true
      | inl _ => inr false
      end
  | _ => inl AssertionError
  end.


(** ** The console *)

(** The exceptions of the methods [visualize]: those above, and three
    more. *)
Inductive exception :=
  | Raised (e : exn)
  | EOFError
  | IndexError
  | NotImplementedError.

(** What a method writes or shows: a printed line, the prompt of a call to
    [input], and the playback of a trajectory. *)
Inductive event :=
  | Print (line : text)
  | Prompt (prompt : text)
  | Play (t : basics.Trajectory).

(** Computations that write to the console and read nothing from it. *)
Definition W (A : Type) : Type := ((exception + A) * list event)%type.

#[global] Instance W_ret : MRet W := fun A x => (inr x, []).

#[global] Instance W_bind : MBind W := fun A B f m =>
  match m with
  | (inr x, out) => let '(r, out') := f x in (r, out ++ out')
  | (inl e, out) => (inl e, out)
  end.

Definition throw {A} (e : exception) : W A := (inl e, []).

(** [print(line)] *)
Definition print (line : text) : W unit := (inr (), [Print line]).

(** A pure operation that may raise one of the exceptions [exn]. *)
Definition try {A} (r : exn + A) : W A :=
  match r with inl e => throw (Raised e) | inr x => mret x end.

(** [l.attr], read in the store [h]. *)
Definition read {A} (h : heap) (attr : object -> option A) (l : loc) : W A :=
  match h !! l ≫= attr with
  | Some v => mret v
  | None => throw (Raised AttributeError)
  end.

(** Computations that also read lines from the standard input: the result
    and the output, and the lines that are left. *)
Definition IO (A : Type) : Type := list text -> W A * list text.

#[global] Instance IO_ret : MRet IO := fun A x stdin => (mret x, stdin).

#[global] Instance IO_bind : MBind IO := fun A B f m stdin =>
  match m stdin with
  | ((inr x, out), stdin') =>
      let '((r, out'), stdin'') := f x stdin' in ((r, out ++ out'), stdin'')
  | ((inl e, out), stdin') => ((inl e, out), stdin')
  end.

Definition writing {A} (w : W A) : IO A := fun stdin => (w, stdin).

(** [str(i)] for an integer [i]: its decimal digits, after a minus sign when
    it is negative.  The integers that the module prints are indices and
    sizes of slates, which are far below the 640 digits from which an
    interpreter may refuse the conversion. *)
Definition str (i : Z) : text := text_of (pretty i).

(** The loop
    [selection = None
     while selection is None:
         selection = input(prompt)
         if <selection is rejected>: selection = None],
    which returns the selection it ends with.  [prompt] is the prompt,
    whose evaluation may raise, and [keep selection] tells whether
    the body leaves the selection as it is, with what the body prints.  At
    the end of the input, [input] raises [EOFError]. *)
Fixpoint while_selection_is_None (prompt : W text)
    (keep : text -> W bool) (stdin : list text) : W text * list text :=
  match prompt with
  | (inl e, out) => ((inl e, out), stdin)
  | (inr p, out) =>
      match stdin with
      | [] => ((inl EOFError, out ++ [Prompt p]), [])
      | selection :: stdin' =>
          match keep selection with
          | (inl e, out') => ((inl e, out ++ Prompt p :: out'), stdin')
          | (inr true, out') =>
              ((inr selection, out ++ Prompt p :: out'), stdin')
          | (inr false, out') =>
              let '((r, out''), stdin'') :=
                while_selection_is_None prompt keep stdin' in
              ((r, out ++ Prompt p :: out' ++ out''), stdin'')
          end
      end
  end.

(** Modelled from the spec: the indexed access [slate[i]] of
    [TrajectorySet] in [basics], which indexes the sequence of its
    trajectories as Python does: from the end for a negative index, and with
    [IndexError] outside the sequence. *)
Definition TrajectorySet_getitem (ts : basics.TrajectorySet) (i : Z)
    : W basics.Trajectory :=
  let l := basics.trajectories ts in
  let j := if i <? 0 then i + Z.of_nat (length l) else i in
  if j <? 0 then throw IndexError
  else match l !! Z.to_nat j with
       | Some t => mret t
       | None => throw IndexError
       end.

(** Modelled from the spec: the method [visualize] of [Trajectory] in
    [basics], a playback without a return value. *)
Definition Trajectory_visualize (t : basics.Trajectory) : W unit :=
  (inr (), [Play t]).

(** [for i in indices: body(i)] *)
Fixpoint for_range (indices : list Z) (body : Z -> W unit) : W unit :=
  match indices with
  | [] => mret ()
  | i :: indices' => body i;; for_range indices' body
  end.

(** The loop that the three [visualize] methods start with:
    [for i in range(self.K):
         print('Playing trajectory #' + str(i))
         self.slate[i].visualize()].
    The integers of [range(k)] are those of [np.arange(k)]. *)
Definition play_slate (h : heap) (self : loc) : W unit :=
  k ← read h attr.K self;
  for_range (np_arange k) (fun i =>
    print (text_of "Playing trajectory #" ++ str i);;
    slate ← read h attr._slate self;
    t ← TrajectorySet_getitem slate i;
    Trajectory_visualize t).

(** [Query.visualize(self)] *)
Definition Query_visualize (self : loc) : IO unit :=
  writing (throw NotImplementedError).

(** [int(selection)] *)
Definition int_of (py : interpreter) (selection : text) : W Z :=
  try (int py selection).

(** The body of the loop of [PreferenceQuery.visualize] and of
    [WeakComparisonQuery.visualize]:
    [if not isinteger(selection) or int(selection) not in self.response_set:
         selection = None]. *)
Definition keep_if_in_response_set (py : interpreter) (h : heap) (self : loc)
    (selection : text) : W bool :=
  is_int ← try (isinteger py (Py_str selection));
  if negb is_int then mret false
  else
    v ← int_of py selection;
    rs ← read h attr.response_set self;
    mret (array_contains_int rs v).

(** [PreferenceQuery.visualize(self)] *)
Definition PreferenceQuery_visualize (py : interpreter) (h : heap)
    (self : loc) : IO Z :=
  writing (play_slate h self);;
  selection ← while_selection_is_None
    (k ← read h attr.K self;
     mret (text_of "Which trajectory is the best? Enter a number: [0-"
           ++ str (k - 1) ++ text_of "]: "))
    (keep_if_in_response_set py h self);
  writing (int_of py selection).

(** The quotation mark. *)
Definition quote : string := String "034" "".

(** [WeakComparisonQuery.visualize(self)] *)
Definition WeakComparisonQuery_visualize (py : interpreter) (h : heap)
    (self : loc) : IO Z :=
  writing (play_slate h self);;
  selection ← while_selection_is_None
    (mret (text_of ("Which trajectory is the best? Enter a number (-1 for "
                    +:+ quote +:+ "About Equal" +:+ quote +:+ "): ")))
    (keep_if_in_response_set py h self);
  writing (int_of py selection).

(** [x in response] for a Python list of integers. *)
Definition list_contains (response : list Z) (x : Z) : bool :=
  bool_decide (x ∈ response).

(** The body of the inner loop of [FullRankingQuery.visualize]:
    [if not isinteger(selection) or int(selection) < 0
            or int(selection) >= self.K:
         selection = None
     elif int(selection) in response:
         print('You have already chosen trajectory ' + selection + ' before!')
         selection = None]. *)
Definition keep_if_new_index (py : interpreter) (h : heap) (self : loc)
    (response : list Z) (selection : text) : W bool :=
  is_int ← try (isinteger py (Py_str selection));
  if negb is_int then mret false
  else
    v ← int_of py selection;
    if v <? 0 then mret false
    else
      v ← int_of py selection;
      k ← read h attr.K self;
      if k <=? v then mret false
      else
        v ← int_of py selection;
        if list_contains response v
        then
          print (text_of "You have already chosen trajectory " ++ selection
                 ++ text_of " before!");;
          mret false
        else mret true.

(** The outer loop of [FullRankingQuery.visualize], which asks for the
    ranks [i], [i + 1], ... below [self.K]:
    [while i < self.K:
         <the inner loop>
         response.append(int(selection))
         i += 1];
    [n] is the number of rounds that are left. *)
Fixpoint ask_ranks (py : interpreter) (h : heap) (self : loc) (n : nat)
    (i : Z) (response : list Z) : IO (list Z) :=
  match n with
  | O => mret response
  | S n' =>
      selection ← while_selection_is_None
        (k ← read h attr.K self;
         mret (text_of "Which trajectory is your #" ++ str i
               ++ text_of " favorite? Enter a number [0-" ++ str (k - 1)
               ++ text_of "]: "))
        (keep_if_new_index py h self response);
      v ← writing (int_of py selection);
      ask_ranks py h self n' (i + 1) (response ++ [v])
  end.

(** [np.unique(a)]: the distinct elements of [a], sorted. *)
Definition np_unique (a : list Z) : list Z := merge_sort Z.le (remove_dups a).

(** The elements of an array, row after row. *)
Definition ravel (arr : ndarray) : list Z :=
  match arr with
  | Array1 a => a
  | Array2 rows => concat rows
  end.

(** [np.setdiff1d(arr, l)]: the sorted distinct elements of [arr] that are
    not in [l]. *)
Definition np_setdiff1d (arr : ndarray) (l : list Z) : list Z :=
  filter (fun x => x ∉ np_unique l) (np_unique (ravel arr)).

(** [a.item()]: the element of an array that has exactly one. *)
Definition item (a : list Z) : W Z :=
  match a with
  | [x] => mret x
  | _ => throw (Raised ValueError)
  end.

(** [FullRankingQuery.visualize(self)] *)
Definition FullRankingQuery_visualize (py : interpreter) (h : heap)
    (self : loc) : IO (list Z) :=
  writing (play_slate h self);;
  k ← writing (read h attr.K self);
  response ← ask_ranks py h self (Z.to_nat (k - 1)) 1 [];
  rs ← writing (read h attr.response_set self);
  remaining_id ← writing (item (np_setdiff1d rs response));
  mret (response ++ [remaining_id]).
(** ** Vocabulary of the statements *)

(** The trajectories of a slate argument that is a [TrajectorySet] or a
    list. *)
Definition slate_items (s : basics.slate_argument)
    : option (list basics.Trajectory) :=
  match s with
  | basics.Slate_TrajectorySet ts => Some (basics.trajectories ts)
  | basics.Slate_list l => Some l
  | basics.Slate_other => None
  end.

(** The attributes of the object at [l], when there is one. *)
Definition attribute {A} (h : heap) (l : loc) (a : object -> option A)
    : option A :=
  h !! l ≫= a.

(** [a] holds exactly the integers [0, 1, ..., k-1], in this order. *)
Definition is_range (k : nat) (a : list Z) : Prop :=
  length a = k ∧ ∀ i : nat, (i < k)%nat → a !! i = Some (Z.of_nat i).

(** A base-10 integer literal in ASCII characters, which is what the
    parser reads: digits, with single underscores allowed between two
    digits ... *)
Inductive digits_with_underscores : string -> Prop :=
  | dwu_digit c d :
      digit_value c = Some d ->
      digits_with_underscores (String c EmptyString)
  | dwu_more c d s :
      digit_value c = Some d ->
      digits_with_underscores s ->
      digits_with_underscores (String c s)
  | dwu_underscore c d s :
      digit_value c = Some d ->
      digits_with_underscores s ->
      digits_with_underscores (String c (String "_" s)).

(** ... optionally preceded by a sign ... *)
Inductive signed_digits : string -> Prop :=
  | sd_plain s : digits_with_underscores s -> signed_digits s
  | sd_plus s : digits_with_underscores s -> signed_digits (String "+" s)
  | sd_minus s : digits_with_underscores s -> signed_digits (String "-" s).

Definition all_space (s : string) : Prop :=
  Forall (fun c => Py_ISSPACE c = true) (list_ascii_of_string s).

(** ... and surrounded by whitespace. *)
Definition integer_literal (s : string) : Prop :=
  ∃ before body after,
    s = (before ++ body ++ after)%string ∧
    all_space before ∧ signed_digits body ∧ all_space after.

(** The characters of a text that are whitespace: of ASCII, the space and
    tab to carriage return; beyond ASCII, what the Unicode database of the
    interpreter says. *)
Definition is_whitespace (py : interpreter) (ch : N) : bool :=
  if (ch <? 128)%N then ((ch =? 32) || ((9 <=? ch) && (ch <=? 13)))%N
  else Py_UNICODE_ISSPACE py ch.

(** The characters of a text that are decimal digits: of ASCII, 0 to 9;
    beyond ASCII, those that the database gives a decimal value, and does
    not take for whitespace. *)
Definition is_decimal_digit (py : interpreter) (ch : N) : bool :=
  if (ch <? 128)%N then ((48 <=? ch) && (ch <=? 57))%N
  else negb (Py_UNICODE_ISSPACE py ch)
       && bool_decide (is_Some (Py_UNICODE_TODECIMAL py ch)).

(** A text that is a base-10 integer literal: decimal digits, with single
    underscores (code point 95) allowed between two digits ... *)
Inductive text_digits (py : interpreter) : text -> Prop :=
  | td_digit ch :
      is_decimal_digit py ch = true ->
      text_digits py [ch]
  | td_more ch t :
      is_decimal_digit py ch = true ->
      text_digits py t ->
      text_digits py (ch :: t)
  | td_underscore ch t :
      is_decimal_digit py ch = true ->
      text_digits py t ->
      text_digits py (ch :: 95%N :: t).

(** ... optionally preceded by a plus or a minus sign (43, 45) ... *)
Inductive text_signed_digits (py : interpreter) : text -> Prop :=
  | tsd_plain t : text_digits py t -> text_signed_digits py t
  | tsd_plus t : text_digits py t -> text_signed_digits py (43%N :: t)
  | tsd_minus t : text_digits py t -> text_signed_digits py (45%N :: t).

Definition text_space (py : interpreter) (t : text) : Prop :=
  Forall (fun ch => is_whitespace py ch = true) t.

(** ... and surrounded by whitespace. *)
Definition text_integer_literal (py : interpreter) (t : text) : Prop :=
  ∃ before body after,
    t = before ++ body ++ after ∧
    text_space py before ∧ text_signed_digits py body ∧ text_space py after.

(** The number of the decimal digits of a text. *)
Definition number_of_digits (py : interpreter) (t : text) : N :=
  N.of_nat (length (filter (fun ch => is_decimal_digit py ch = true) t)).

(** The interpreter converts a text with as many digits as [t] has: they
    are at most 640, or the interpreter has no bound, or they are within
    its bound. *)
Definition digits_allowed (py : interpreter) (t : text) : Prop :=
  (number_of_digits py t ≤ 640 ∨ max_str_digits py = 0
   ∨ number_of_digits py t ≤ max_str_digits py)%N.

(** An interpreter for the examples.  Beyond ASCII, its whitespace is that
    of the Unicode database, and its decimal digits are the Arabic-Indic,
    the extended Arabic-Indic, the Devanagari and the fullwidth digits; its
    bound on the digits is the default of 4300. *)
Definition example_interpreter : interpreter :=
  {| Py_UNICODE_ISSPACE ch :=
       (bool_decide (ch ∈ [0x85; 0xA0; 0x1680; 0x2028; 0x2029; 0x202F;
                           0x205F; 0x3000])
        || ((0x2000 <=? ch) && (ch <=? 0x200A)))%N;
     Py_UNICODE_TODECIMAL ch :=
       block ← List.find (fun b => ((b <=? ch) && (ch <? b + 10))%N)
                 [0x660; 0x6F0; 0x966; 0xFF10]%N;
       [0; 1; 2; 3; 4; 5; 6; 7; 8; 9]%fin !! N.to_nat (ch - block);
     max_str_digits := 4300 |}.

(** The object [o] after the assignment of a slate with the trajectories
    [l], where [rs k] is the response set for a slate of size [k]. *)
Definition slated (rs : Z → ndarray) (l : list basics.Trajectory) (o : object)
    : object :=
  let k := Z.of_nat (length l) in
  with_response_set (rs k)
    (with_K k (with_slate {| basics.trajectories := l |} o)).

(** The outcome of the constructor of a query class whose initializer
    accepts the slate sizes [k] with [valid k]. *)
Definition query_new_outcome (c : class) (rs : Z → ndarray) (valid : Z → bool)
    (slate : basics.slate_argument) (h : heap) : (exn + loc) * heap :=
  match slate_items slate with
  | Some l =>
      (if valid (Z.of_nat (length l)) then inr (length h) else inl AssertionError,
       h ++ [slated rs l (empty_object c)])
  | None => (inl AssertionError, h ++ [empty_object c])
  end.

(** The outcome of the constructor of a response class for the query at [q],
    once the parent initializer has stored [q]: [check] is the membership
    test of the response in the response set of the query. *)
Definition response_new_outcome (c : class) (q : loc) (resp : response_value)
    (check : ndarray → exn + bool) (h : heap) : (exn + loc) * heap :=
  let self := with_query q (empty_object c) in
  match attribute h q attr.response_set with
  | None => (inl AttributeError, h ++ [self])
  | Some rs =>
      match check rs with
      | inr true => (inr (length h), h ++ [with_response resp self])
      | inr false => (inl AssertionError, h ++ [self])
      | inl e => (inl e, h ++ [self])
      end
  end.

(** The query at [q] has slate size [k] and the response set that the setter
    of [PreferenceQuery] computes from it. *)
Definition PreferenceQuery_state (h : heap) (q : loc) (k : Z) : Prop :=
  attribute h q attr.K = Some k ∧
  attribute h q attr.response_set = Some (Array1 (np_arange k)).

(** The shapes of two one-dimensional arrays can be broadcast together:
    they have as many entries, or one of them has exactly one. *)
Definition broadcastable (a b : state) : Prop :=
  length a = length b ∨ length a = 1%nat ∨ length b = 1%nat.

(** [a] is elementwise close to [b]: entry by entry when they have as many
    entries, and an array of one entry against every entry of the other. *)
Definition close_elementwise (a b : state) : Prop :=
  Forall2 (λ x y, isclose x y = true) a b
  ∨ (∃ x, a = [x] ∧ Forall (λ y, isclose x y = true) b)
  ∨ (∃ y, b = [y] ∧ Forall (λ x, isclose x y = true) a).

(** A one-step trajectory, for the examples. *)
Definition example_trajectory : basics.Trajectory :=
  {| basics.traj_first := ([1%float; 2%float], [0%float]);
     basics.traj_rest := [];
     basics.features := [3%float] |}.

(** The query at [q] holds the slate with the trajectories [l], and [K] is
    their number: the state that a slate assignment leaves. *)
Definition slate_state (h : heap) (q : loc) (l : list basics.Trajectory)
    : Prop :=
  attribute h q attr._slate = Some {| basics.trajectories := l |} ∧
  attribute h q attr.K = Some (Z.of_nat (length l)).

(** What the methods [visualize] write before they prompt, for a slate with
    the trajectories [l]: each trajectory is announced and played, in the
    order of the slate. *)
Definition playback (l : list basics.Trajectory) : list event :=
  concat (imap (fun i t =>
                  [Print (text_of "Playing trajectory #" ++ str (Z.of_nat i));
                   Play t])
               l).

(** The prompts of [PreferenceQuery.visualize] and of
    [WeakComparisonQuery.visualize]. *)
Definition PreferenceQuery_prompt (k : Z) : text :=
  text_of "Which trajectory is the best? Enter a number: [0-" ++ str (k - 1)
  ++ text_of "]: ".

Definition WeakComparisonQuery_prompt : text :=
  text_of ("Which trajectory is the best? Enter a number (-1 for " +:+ quote
           +:+ "About Equal" +:+ quote +:+ "): ").

(** A line that the loop of [PreferenceQuery.visualize] rejects, for a slate
    of size [k]: it is no integer literal, or its value is not in [0, k). *)
Definition rejected_index (py : interpreter) (k : Z) (line : text) : Prop :=
  ∀ v, int py line = inr v → ¬ (0 ≤ v < k).

(** The characters of a string all are ASCII characters. *)
Definition is_ascii (s : string) : Prop :=
  Forall (fun c => (N_of_ascii c < 128)%N) (list_ascii_of_string s).

(** ** Facts about the store *)

Lemma lookup_fresh (h : heap) (o : object) : (h ++ [o]) !! length h = Some o.
Proof. by rewrite list_lookup_middle. Qed.

Lemma alter_fresh (f : object -> object) (h : heap) (o : object) :
  alter f (length h) (h ++ [o]) = h ++ [f o].
Proof. rewrite alter_app_r_alt by lia. by rewrite Nat.sub_diag. Qed.

Lemma lookup_old (h : heap) (o : object) (l : loc) :
  (l < length h)%nat → (h ++ [o]) !! l = h !! l.
Proof. intros. by rewrite lookup_app_l. Qed.

(** ** Facts about [select] and [itertools.permutations] *)

Lemma length_bind_const {B C} (f : B → list C) (bs : list B) (c : nat) :
  (∀ b, b ∈ bs → length (f b) = c) → length (bs ≫= f) = (length bs * c)%nat.
Proof.
  induction bs as [|b bs IH]; intros Hf; simpl; [done|].
  rewrite length_app. rewrite Hf by left. f_equal. apply IH.
  intros b' Hb. apply Hf. by right.
Qed.

Section permutations.
Context {A : Type}.
Implicit Types (x : A) (l p rest : list A).

Lemma select_fst l : (select l).*1 = l.
Proof.
  induction l as [|a l IH]; simpl; [done|].
  f_equal. rewrite <- list_fmap_compose.
  rewrite <- IH at 2. apply list_fmap_ext. by intros ? [??].
Qed.

Lemma length_select l : length (select l) = length l.
Proof. by rewrite <- (select_fst l) at 2; rewrite length_fmap. Qed.

Lemma elem_of_select x rest l : (x, rest) ∈ select l → l ≡ₚ x :: rest.
Proof.
  revert x rest. induction l as [|a l IH]; simpl; intros x rest H.
  - by apply elem_of_nil in H.
  - apply elem_of_cons in H as [[= -> ->]|H]; [done|].
    apply list_elem_of_fmap in H as [[y ys] [[= -> ->] H]].
    rewrite (IH _ _ H). apply Permutation_swap.
Qed.

Lemma select_elem_of x l : x ∈ l → ∃ rest, (x, rest) ∈ select l.
Proof.
  induction l as [|a l IH]; simpl; intros H.
  - by apply elem_of_nil in H.
  - apply elem_of_cons in H as [->|H].
    + exists l. left.
    + destruct (IH H) as [rest Hrest]. exists (a :: rest). right.
      apply list_elem_of_fmap. by exists (x, rest).
Qed.

Lemma select_functional x rest1 rest2 l :
  NoDup l → (x, rest1) ∈ select l → (x, rest2) ∈ select l → rest1 = rest2.
Proof.
  rewrite <- (select_fst l) at 1.
  generalize (select l). intros s. induction s as [|[y r] s IH]; simpl.
  - intros _ H. by apply elem_of_nil in H.
  - rewrite NoDup_cons. intros [Hy Hs] H1 H2.
    apply elem_of_cons in H1 as [H1|H1];
      apply elem_of_cons in H2 as [H2|H2]; simplify_eq; try done.
    + destruct Hy. apply list_elem_of_fmap. by exists (y, rest2).
    + destruct Hy. apply list_elem_of_fmap. by exists (y, rest1).
    + by apply IH.
Qed.

Lemma length_permutations_r r l :
  length l = r → length (permutations_r r l) = fact r.
Proof.
  revert l. induction r as [|r IH]; intros l Hl; simpl; [done|].
  rewrite (length_bind_const _ _ (fact r)), length_select, Hl; [done|].
  intros [x rest] Hx. rewrite length_fmap. apply IH.
  apply elem_of_select, Permutation_length in Hx. simpl in Hx. lia.
Qed.

Lemma elem_of_permutations_r r l p :
  length l = r → p ∈ permutations_r r l ↔ p ≡ₚ l.
Proof.
  revert l p. induction r as [|r IH]; intros l p Hl; simpl.
  - apply nil_length_inv in Hl as ->. rewrite list_elem_of_singleton.
    split; [by intros ->|]. intros H. by apply Permutation_nil_r in H.
  - rewrite list_elem_of_bind. split.
    + intros [[x rest] [Hp Hx]].
      apply list_elem_of_fmap in Hp as [p' [-> Hp']].
      apply elem_of_select in Hx.
      apply IH in Hp'; [by rewrite Hp', Hx|].
      apply Permutation_length in Hx. simpl in Hx. lia.
    + intros Hp. destruct p as [|x p'].
      { apply Permutation_length in Hp. simpl in Hp. lia. }
      assert (x ∈ l) as Hx by (rewrite <- Hp; left).
      apply select_elem_of in Hx as [rest Hx]. exists (x, rest).
      split; [|done]. apply list_elem_of_fmap. exists p'. split; [done|].
      pose proof (elem_of_select _ _ _ Hx) as Hl'.
      apply IH.
      * apply Permutation_length in Hl'. simpl in Hl'. lia.
      * apply Permutation_cons_inv with x. by rewrite Hp.
Qed.

Lemma NoDup_permutations_r r l :
  length l = r → NoDup l → NoDup (permutations_r r l).
Proof.
  revert l. induction r as [|r IH]; intros l Hl Hnd; simpl.
  - apply NoDup_singleton.
  - apply NoDup_bind.
    + intros [x1 r1] [x2 r2] p H1 H2 Hp1 Hp2.
      apply list_elem_of_fmap in Hp1 as [p1 [-> _]].
      apply list_elem_of_fmap in Hp2 as [p2 [[= -> _] _]].
      f_equal. by eapply select_functional.
    + intros [x rest] Hx. apply (NoDup_fmap_2 _).
      pose proof (elem_of_select _ _ _ Hx) as Hl'.
      apply IH.
      * apply Permutation_length in Hl'. simpl in Hl'. lia.
      * rewrite Hl' in Hnd. by apply NoDup_cons in Hnd as [_ ?].
    + apply (NoDup_fmap_1 fst). by rewrite select_fst.
Qed.
End permutations.

Lemma insert_fresh (h : heap) (o o' : object) :
  <[length h := o']> (h ++ [o]) = h ++ [o'].
Proof. rewrite insert_app_r_alt by lia. by rewrite Nat.sub_diag. Qed.

Lemma alter_insert (f : object -> object) (h : heap) (l : loc) (o : object) :
  h !! l = Some o → alter f l h = <[l := f o]> h.
Proof.
  intros H. apply list_eq. intros j. destruct (decide (l = j)) as [<-|Hne].
  - rewrite list_lookup_alter_eq, H. simpl.
    rewrite list_lookup_insert_eq; [done|]. by eapply lookup_lt_Some.
  - by rewrite list_lookup_alter_ne, list_lookup_insert_ne.
Qed.

Lemma lookup_insert_same (h : heap) (l : loc) (o o' : object) :
  h !! l = Some o → <[l := o']> h !! l = Some o'.
Proof. intros H. apply list_lookup_insert_eq. by eapply lookup_lt_Some. Qed.

Lemma alter_insert_same (f : object -> object) (h : heap) (l : loc)
    (o o' : object) :
  h !! l = Some o → alter f l (<[l := o']> h) = <[l := f o']> h.
Proof.
  intros H. rewrite (alter_insert f _ l o').
  - apply list_insert_insert_eq.
  - by eapply lookup_insert_same.
Qed.

(** ** What the methods compute *)

Ltac run :=
  unfold mbind, M_bind, mret, M_ret, setattr, getattr, assert, lift, raise,
    alloc; simpl.

Lemma assign_slate_and_K_spec h self o slate l :
  h !! self = Some o → slate_items slate = Some l →
  assign_slate_and_K self slate h =
    (inr (), <[self := with_K (Z.of_nat (length l))
                        (with_slate {| basics.trajectories := l |} o)]> h).
Proof.
  intros Ho Hl. unfold assign_slate_and_K.
  destruct slate as [[l']|l'|]; simplify_eq/=; run.
  all: rewrite list_lookup_alter_eq, Ho; simpl.
  all: by rewrite (alter_insert _ _ _ _ Ho), (alter_insert_same _ _ _ _ _ Ho).
Qed.

Lemma PreferenceQuery_slate_setter_spec h self o slate l :
  h !! self = Some o → slate_items slate = Some l →
  PreferenceQuery.slate_setter self slate h =
    (inr (), <[self := slated (λ k, Array1 (np_arange k)) l o]> h).
Proof.
  intros Ho Hl. unfold PreferenceQuery.slate_setter.
  unfold mbind at 1, M_bind at 1.
  rewrite (assign_slate_and_K_spec _ _ _ _ _ Ho Hl). run.
  rewrite (lookup_insert_same _ _ _ _ Ho). simpl.
  by rewrite (alter_insert_same _ _ _ _ _ Ho).
Qed.

Lemma WeakComparisonQuery_slate_setter_spec h self o slate l :
  h !! self = Some o → slate_items slate = Some l →
  WeakComparisonQuery.slate_setter self slate h =
    (inr (), <[self := slated (λ _, Array1 [-1; 0; 1]) l o]> h).
Proof.
  intros Ho Hl. unfold WeakComparisonQuery.slate_setter.
  unfold mbind at 1, M_bind at 1.
  rewrite (assign_slate_and_K_spec _ _ _ _ _ Ho Hl). run.
  by rewrite (alter_insert_same _ _ _ _ _ Ho).
Qed.

Lemma FullRankingQuery_slate_setter_spec h self o slate l :
  h !! self = Some o → slate_items slate = Some l →
  FullRankingQuery.slate_setter self slate h =
    (inr (),
     <[self := slated (λ k, Array2 (itertools_permutations (np_arange k))) l o]> h).
Proof.
  intros Ho Hl. unfold FullRankingQuery.slate_setter.
  unfold mbind at 1, M_bind at 1.
  rewrite (assign_slate_and_K_spec _ _ _ _ _ Ho Hl). run.
  rewrite (lookup_insert_same _ _ _ _ Ho). simpl.
  by rewrite (alter_insert_same _ _ _ _ _ Ho).
Qed.

Lemma PreferenceQuery_new_spec slate h :
  PreferenceQuery.new slate h =
    query_new_outcome C_PreferenceQuery (λ k, Array1 (np_arange k))
      (λ k, 2 <=? k) slate h.
Proof.
  unfold query_new_outcome, PreferenceQuery.new, PreferenceQuery.__init__,
    Query.__init__.
  destruct (slate_items slate) as [l|] eqn:Hl.
  - run. replace (_ || _) with true by (by destruct slate).
    simpl. 
    rewrite (PreferenceQuery_slate_setter_spec _ _ _ _ _ (lookup_fresh h _) Hl).
    rewrite insert_fresh, lookup_fresh. simpl.
    by destruct (2 <=? _).
  - destruct slate; simplify_eq/=. by run.
Qed.

Lemma WeakComparisonQuery_new_spec slate h :
  WeakComparisonQuery.new slate h =
    query_new_outcome C_WeakComparisonQuery (λ _, Array1 [-1; 0; 1])
      (λ k, k =? 2) slate h.
Proof.
  unfold query_new_outcome, WeakComparisonQuery.new,
    WeakComparisonQuery.__init__, Query.__init__.
  destruct (slate_items slate) as [l|] eqn:Hl.
  - run. replace (_ || _) with true by (by destruct slate).
    simpl.
    rewrite (WeakComparisonQuery_slate_setter_spec _ _ _ _ _ (lookup_fresh h _) Hl).
    rewrite insert_fresh, lookup_fresh. simpl.
    by destruct (_ =? 2).
  - destruct slate; simplify_eq/=. by run.
Qed.

Lemma FullRankingQuery_new_spec slate h :
  FullRankingQuery.new slate h =
    query_new_outcome C_FullRankingQuery
      (λ k, Array2 (itertools_permutations (np_arange k)))
      (λ k, 2 <=? k) slate h.
Proof.
  unfold query_new_outcome, FullRankingQuery.new, FullRankingQuery.__init__,
    Query.__init__.
  destruct (slate_items slate) as [l|] eqn:Hl.
  - run. replace (_ || _) with true by (by destruct slate).
    simpl.
    rewrite (FullRankingQuery_slate_setter_spec _ _ _ _ _ (lookup_fresh h _) Hl).
    rewrite insert_fresh, lookup_fresh. simpl.
    by destruct (2 <=? _).
  - destruct slate; simplify_eq/=. by run.
Qed.

Lemma attribute_fresh {A} (a : object → option A) (h : heap) (o : object) :
  attribute (h ++ [o]) (length h) a = a o.
Proof. unfold attribute. by rewrite lookup_fresh. Qed.

Lemma attribute_new_object {A} (a : object → option A) (h : heap)
    (o : object) (q : loc) :
  a o = None → attribute (h ++ [o]) q a = attribute h q a.
Proof.
  intros Ho. unfold attribute.
  destruct (decide (q < length h)%nat) as [Hlt|Hge].
  - by rewrite lookup_old.
  - rewrite (lookup_ge_None_2 h q) by lia.
    destruct (decide (q = length h)) as [->|Hne].
    + by rewrite lookup_fresh.
    + rewrite lookup_ge_None_2; [done|]. rewrite length_app. simpl. lia.
Qed.

Lemma response_new_spec (c : class) (q : loc) (resp : response_value)
    (check : ndarray → exn + bool) (h : heap) :
  (self ← alloc c;
   (QueryWithResponse.__init__ self q [];;
    q' ← getattr attr.query self;
    rs ← getattr attr.response_set q';
    ok ← lift (check rs);
    assert ok;;
    setattr (with_response resp) self);;
   mret self) h = response_new_outcome c q resp check h.
Proof.
  unfold response_new_outcome, QueryWithResponse.__init__. run.
  rewrite alter_fresh, lookup_fresh. simpl.
  change (?h' !! q ≫= attr.response_set) with (attribute h' q attr.response_set).
  rewrite attribute_new_object by done.
  destruct (attribute h q attr.response_set) as [rs|]; [|done].
  destruct (check rs) as [e|[|]]; simpl; [done| |done].
  by rewrite alter_fresh.
Qed.

Lemma Preference_new_spec q r h :
  Preference.new q r h =
    response_new_outcome C_Preference q r (λ rs, array_contains rs r) h.
Proof. by rewrite <- response_new_spec. Qed.

Lemma FullRanking_new_spec q l h :
  FullRanking.new q l h =
    response_new_outcome C_FullRanking q (R_list l)
      (λ rs, array_contains_list rs l) h.
Proof. by rewrite <- response_new_spec. Qed.

Lemma WeakComparison_new_spec q r h :
  WeakComparison.new q r h = (inl TypeError, h ++ [empty_object C_WeakComparison]).
Proof. done. Qed.

(** ** Facts about the arrays *)

Lemma is_range_np_arange (k : nat) : is_range k (np_arange (Z.of_nat k)).
Proof.
  unfold is_range, np_arange. rewrite Nat2Z.id. split.
  - by rewrite length_fmap, length_seq.
  - intros i Hi. rewrite list_lookup_fmap, lookup_seq_lt by done. done.
Qed.

Lemma any_true (bs : list bool) : any bs = true ↔ true ∈ bs.
Proof.
  unfold any. induction bs as [|[|] bs IH]; simpl.
  - split; [done|]. intros H. by apply elem_of_nil in H.
  - split; [left|done].
  - rewrite IH, elem_of_cons. split; [by right|]. by intros [?|?].
Qed.

Lemma elem_of_concat {A} (x : A) (ls : list (list A)) :
  x ∈ concat ls ↔ ∃ l, x ∈ l ∧ l ∈ ls.
Proof.
  rewrite list_elem_of_In, in_concat. split.
  - intros [l [Hl Hx]]. exists l. by rewrite !list_elem_of_In.
  - intros [l [Hx Hl]]. exists l. by rewrite <- !list_elem_of_In.
Qed.

Lemma elem_of_np_arange (k r : Z) : r ∈ np_arange k ↔ 0 ≤ r < k.
Proof.
  unfold np_arange. rewrite list_elem_of_fmap. split.
  - intros [n [-> Hn]]. apply elem_of_seq in Hn. lia.
  - intros Hr. exists (Z.to_nat r). split; [lia|]. apply elem_of_seq. lia.
Qed.

Lemma array_contains_int_1 (a : list Z) (r : Z) :
  array_contains_int (Array1 a) r = true ↔ r ∈ a.
Proof.
  simpl. rewrite any_true, list_elem_of_fmap. split.
  - intros [x [Hx%eq_sym%Z.eqb_eq Hin]]. by subst.
  - intros Hr. exists r. by rewrite Z.eqb_refl.
Qed.

Lemma array_contains_int_arange (k r : Z) :
  array_contains_int (Array1 (np_arange k)) r = true ↔ 0 ≤ r < k.
Proof. by rewrite array_contains_int_1, elem_of_np_arange. Qed.

Lemma eq_broadcast_same_length (a l : list Z) :
  length a = length l → eq_broadcast a l = Some (zip_with Z.eqb a l).
Proof. intros H. unfold eq_broadcast. by rewrite H, Nat.eqb_refl. Qed.

Lemma zip_with_eqb_refl (l : list Z) : l ≠ [] → true ∈ zip_with Z.eqb l l.
Proof. destruct l as [|x l]; [done|]. intros _. simpl. rewrite Z.eqb_refl. left. Qed.

(** A row of a two-dimensional array whose rows all have its length, and
    which is not empty, is found in the array. *)
Lemma array_contains_row (rows : list (list Z)) (row : list Z) :
  row ∈ rows → row ≠ [] → (∀ r, r ∈ rows → length r = length row) →
  array_contains_list (Array2 rows) row = inr true.
Proof.
  intros Hin Hne Hlen. unfold array_contains_list.
  assert (mapM (λ r, eq_broadcast r row) rows
          = Some ((λ r, zip_with Z.eqb r row) <$> rows)) as ->.
  { apply mapM_Some. apply Forall2_fmap_r, Forall_Forall2_diag, Forall_forall.
    intros r Hr. by apply eq_broadcast_same_length, Hlen. }
  f_equal. apply any_true, elem_of_concat.
  exists (zip_with Z.eqb row row). split; [by apply zip_with_eqb_refl|].
  apply list_elem_of_fmap. by exists row.
Qed.

(** ** Preference queries *)

(** C4: for every slate of K >= 2 trajectories, constructing a
    [PreferenceQuery] succeeds and its [response_set] holds exactly the
    integers 0..K-1; constructing one with K < 2 fails with an assertion
    error; and every slate assignment recomputes K and the response set from
    the assigned slate. *)
Theorem PreferenceQuery_response_set_is_range (h : heap)
    (slate : basics.slate_argument) (l : list basics.Trajectory) :
  slate_items slate = Some l →
  ((2 ≤ length l)%nat →
     ∃ q h' a,
       PreferenceQuery.new slate h = (inr q, h') ∧
       attribute h' q attr.K = Some (Z.of_nat (length l)) ∧
       attribute h' q attr.response_set = Some (Array1 a) ∧
       is_range (length l) a) ∧
  ((length l < 2)%nat →
     ∃ h', PreferenceQuery.new slate h = (inl AssertionError, h')) ∧
  (∀ q, is_Some (h !! q) →
     ∃ h' a,
       PreferenceQuery.slate_setter q slate h = (inr (), h') ∧
       attribute h' q attr.K = Some (Z.of_nat (length l)) ∧
       attribute h' q attr.response_set = Some (Array1 a) ∧
       is_range (length l) a).
Proof.
  intros Hl. rewrite PreferenceQuery_new_spec. unfold query_new_outcome.
  rewrite Hl. repeat split.
  - intros Hk. eexists _, _, _. rewrite (proj2 (Z.leb_le _ _)) by lia.
    split; [done|]. rewrite !attribute_fresh. simpl.
    repeat split; try done; apply is_range_np_arange.
  - intros Hk. eexists. by rewrite (proj2 (Z.leb_gt _ _)) by lia.
  - intros q [o Ho]. eexists _, _.
    split; [by apply (PreferenceQuery_slate_setter_spec _ _ _ _ _ Ho Hl)|].
    unfold attribute.
    rewrite (lookup_insert_same _ _ _ _ Ho). simpl.
    repeat split; try done; apply is_range_np_arange.
Qed.

Lemma PreferenceQuery_response_set_is_range_witness :
  ∃ q h' a,
    PreferenceQuery.new
      (basics.Slate_list [example_trajectory; example_trajectory;
                          example_trajectory]) [] = (inr q, h') ∧
    attribute h' q attr.K = Some 3 ∧
    attribute h' q attr.response_set = Some (Array1 a) ∧
    is_range 3 a.
Proof.
  apply (PreferenceQuery_response_set_is_range []
           (basics.Slate_list [example_trajectory; example_trajectory;
                               example_trajectory])
           [example_trajectory; example_trajectory; example_trajectory]
           eq_refl).
  simpl. lia.
Defined.

Lemma eq_broadcast_singleton (a : list Z) (y : Z) :
  eq_broadcast a [y] = Some (map (λ x, Z.eqb x y) a).
Proof.
  unfold eq_broadcast. destruct (length a =? length [y])%nat eqn:Hlen; [|done].
  apply Nat.eqb_eq in Hlen. by destruct a as [|x [|??]].
Qed.

(** C5: for a [PreferenceQuery] of slate size K, [Preference(query, r)]
    succeeds for every integer r in [0, K) and the object's [response] is
    r; for every integer r outside [0, K) the construction fails with an
    assertion error.  A response that is no integer is not refused for that:
    the one-element list [[y]] is accepted or refused as the integer y is,
    and is stored as the list. *)
Theorem Preference_round_trip (h : heap) (q : loc) (k r : Z) :
  PreferenceQuery_state h q k →
  (0 ≤ r < k →
     ∃ p h',
       Preference.new q (R_int r) h = (inr p, h') ∧
       attribute h' p attr.response = Some (R_int r) ∧
       attribute h' p attr.query = Some q) ∧
  (¬ (0 ≤ r < k) →
     ∃ h', Preference.new q (R_int r) h = (inl AssertionError, h')) ∧
  (0 ≤ r < k →
     ∃ p h',
       Preference.new q (R_list [r]) h = (inr p, h') ∧
       attribute h' p attr.response = Some (R_list [r]) ∧
       attribute h' p attr.query = Some q) ∧
  (¬ (0 ≤ r < k) →
     ∃ h', Preference.new q (R_list [r]) h = (inl AssertionError, h')).
Proof.
  intros [_ Hrs]. rewrite !Preference_new_spec. unfold response_new_outcome.
  rewrite Hrs. cbn [array_contains array_contains_list].
  rewrite eq_broadcast_singleton.
  change (any (map (λ x, Z.eqb x r) (np_arange k)))
    with (array_contains_int (Array1 (np_arange k)) r).
  repeat split; intros Hr.
  - apply array_contains_int_arange in Hr as ->.
    eexists _, _. split; [done|]. by rewrite !attribute_fresh.
  - rewrite <- array_contains_int_arange in Hr.
    apply not_true_is_false in Hr as ->. by eexists.
  - apply array_contains_int_arange in Hr as ->.
    eexists _, _. split; [done|]. by rewrite !attribute_fresh.
  - rewrite <- array_contains_int_arange in Hr.
    apply not_true_is_false in Hr as ->. by eexists.
Qed.

Lemma Preference_round_trip_witness :
  let h := (PreferenceQuery.new
              (basics.Slate_list [example_trajectory; example_trajectory;
                                  example_trajectory]) []).2 in
  PreferenceQuery_state h 0%nat 3 ∧
  ∃ p h',
    Preference.new 0%nat (R_int 1) h = (inr p, h') ∧
    attribute h' p attr.response = Some (R_int 1) ∧
    attribute h' p attr.query = Some 0%nat.
Proof.
  intros h.
  assert (PreferenceQuery_state h 0%nat 3) as Hq by (split; reflexivity).
  split; [exact Hq|].
  apply (Preference_round_trip h 0%nat 3 1 Hq). lia.
Defined.

(** C5 does not hold as stated: a response that is not an integer in
    [0, K) can be accepted.  For a query of three trajectories, the
    one-element list [[1]] and the list [[0, 99, 99]] are no integers, and
    [Preference] is built with each of them and holds it as its [response]:
    numpy compares the list with [0, 1, 2] entry by entry, and one equal
    pair is enough. *)
Lemma Preference_accepts_list :
  let h := (PreferenceQuery.new
              (basics.Slate_list [example_trajectory; example_trajectory;
                                  example_trajectory]) []).2 in
  PreferenceQuery_state h 0%nat 3 ∧
  (∀ r : Z, R_list [1] ≠ R_int r) ∧
  (∃ p h',
     Preference.new 0%nat (R_list [1]) h = (inr p, h') ∧
     attribute h' p attr.response = Some (R_list [1])) ∧
  (∃ p h',
     Preference.new 0%nat (R_list [0; 99; 99]) h = (inr p, h') ∧
     attribute h' p attr.response = Some (R_list [0; 99; 99])).
Proof.
  intros h. split; [by split|]. split; [done|].
  split; by eexists _, _.
Qed.

(** ** Weak comparison queries *)

(** C6: for every slate of exactly two trajectories, whatever they are, the
    [response_set] of a [WeakComparisonQuery] is [-1, 0, 1]; constructing
    one from a slate of any other size fails with an assertion error. *)
Theorem WeakComparisonQuery_response_set (h : heap)
    (slate : basics.slate_argument) (l : list basics.Trajectory) :
  slate_items slate = Some l →
  (length l = 2%nat →
     ∃ q h',
       WeakComparisonQuery.new slate h = (inr q, h') ∧
       attribute h' q attr.K = Some 2 ∧
       attribute h' q attr.response_set = Some (Array1 [-1; 0; 1])) ∧
  (length l ≠ 2%nat →
     ∃ h', WeakComparisonQuery.new slate h = (inl AssertionError, h')).
Proof.
  intros Hl. rewrite WeakComparisonQuery_new_spec. unfold query_new_outcome.
  rewrite Hl. split; intros Hk.
  - rewrite Hk. simpl. eexists _, _. split; [done|].
    rewrite !attribute_fresh. simpl. by rewrite Hk.
  - eexists. by rewrite (proj2 (Z.eqb_neq _ _)) by lia.
Qed.

Lemma WeakComparisonQuery_response_set_witness :
  ∃ q h',
    WeakComparisonQuery.new
      (basics.Slate_list [example_trajectory; example_trajectory]) []
      = (inr q, h') ∧
    attribute h' q attr.K = Some 2 ∧
    attribute h' q attr.response_set = Some (Array1 [-1; 0; 1]).
Proof.
  apply (WeakComparisonQuery_response_set []
           (basics.Slate_list [example_trajectory; example_trajectory])
           [example_trajectory; example_trajectory] eq_refl).
  reflexivity.
Defined.

(** C2: the construction of a [WeakComparison] raises [TypeError] for every
    query and every response, also for the responses -1, 0 and 1: the
    initializer passes two arguments to the parent initializer, which takes
    one. *)
Theorem WeakComparison_raises_TypeError (h : heap) (q : loc) (r : Z) :
  WeakComparison.new q r h
  = (inl TypeError, h ++ [empty_object C_WeakComparison]).
Proof. apply WeakComparison_new_spec. Qed.

(** ** Full ranking queries *)

Lemma np_arange_of_nat (n : nat) : np_arange (Z.of_nat n) = Z.of_nat <$> seq 0 n.
Proof. unfold np_arange. by rewrite Nat2Z.id. Qed.

Lemma length_np_arange (n : nat) : length (np_arange (Z.of_nat n)) = n.
Proof. by rewrite np_arange_of_nat, length_fmap, length_seq. Qed.

Lemma NoDup_np_arange (k : Z) : NoDup (np_arange k).
Proof. unfold np_arange. apply (NoDup_fmap_2 _), NoDup_seq. Qed.

(** C7: for every slate of K >= 2 trajectories, the [response_set] of a
    [FullRankingQuery] has exactly K! rows, the rows are pairwise distinct,
    a sequence is a row exactly when it is a permutation of 0..K-1, and
    every row builds a [FullRanking] of that query; constructing a
    [FullRankingQuery] with K < 2 fails with an assertion error. *)
Theorem FullRankingQuery_response_set (h : heap)
    (slate : basics.slate_argument) (l : list basics.Trajectory) :
  slate_items slate = Some l →
  ((2 ≤ length l)%nat →
     ∃ q h' rows,
       FullRankingQuery.new slate h = (inr q, h') ∧
       attribute h' q attr.K = Some (Z.of_nat (length l)) ∧
       attribute h' q attr.response_set = Some (Array2 rows) ∧
       length rows = fact (length l) ∧
       NoDup rows ∧
       (∀ p, p ∈ rows ↔ p ≡ₚ Z.of_nat <$> seq 0 (length l)) ∧
       (∀ row, row ∈ rows →
          ∃ r h'',
            FullRanking.new q row h' = (inr r, h'') ∧
            attribute h'' r attr.response = Some (R_list row) ∧
            attribute h'' r attr.query = Some q)) ∧
  ((length l < 2)%nat →
     ∃ h', FullRankingQuery.new slate h = (inl AssertionError, h')).
Proof.
  intros Hl. rewrite FullRankingQuery_new_spec. unfold query_new_outcome.
  rewrite Hl. split; intros Hk.
  - rewrite (proj2 (Z.leb_le _ _)) by lia.
    set (n := length l) in *.
    set (rows := itertools_permutations (np_arange (Z.of_nat n))).
    assert (∀ p, p ∈ rows ↔ p ≡ₚ Z.of_nat <$> seq 0 n) as Hrows.
    { intros p. unfold rows, itertools_permutations.
      rewrite elem_of_permutations_r by done. by rewrite np_arange_of_nat. }
    eexists _, _, rows. split; [done|].
    rewrite !attribute_fresh. simpl. repeat split; try done.
    + unfold rows, itertools_permutations.
      by rewrite length_permutations_r, length_np_arange.
    + apply NoDup_permutations_r; [done|apply NoDup_np_arange].
    + by apply Hrows.
    + by apply Hrows.
    + intros row Hrow. rewrite FullRanking_new_spec.
      unfold response_new_outcome. rewrite attribute_fresh.
      cbn [slated attr.response_set with_response_set]. fold n rows.
      rewrite array_contains_row; [| done | |].
      * eexists _, _. split; [done|]. by rewrite !attribute_fresh.
      * apply Hrows, Permutation_length in Hrow.
        rewrite length_fmap, length_seq in Hrow. intros ->. simpl in Hrow. lia.
      * intros r' Hr'. apply Hrows in Hr', Hrow. by rewrite Hr', Hrow.
  - eexists. by rewrite (proj2 (Z.leb_gt _ _)) by lia.
Qed.

Lemma FullRankingQuery_response_set_witness :
  ∃ q h' rows,
    FullRankingQuery.new
      (basics.Slate_list [example_trajectory; example_trajectory;
                          example_trajectory]) [] = (inr q, h') ∧
    attribute h' q attr.K = Some 3 ∧
    attribute h' q attr.response_set = Some (Array2 rows) ∧
    length rows = 6%nat ∧
    NoDup rows ∧
    (∀ p, p ∈ rows ↔ p ≡ₚ [0; 1; 2]) ∧
    (∀ row, row ∈ rows →
       ∃ r h'',
         FullRanking.new q row h' = (inr r, h'') ∧
         attribute h'' r attr.response = Some (R_list row) ∧
         attribute h'' r attr.query = Some q).
Proof.
  apply (FullRankingQuery_response_set []
           (basics.Slate_list [example_trajectory; example_trajectory;
                               example_trajectory])
           [example_trajectory; example_trajectory; example_trajectory]
           eq_refl).
  simpl. lia.
Defined.

(** C1: a [FullRanking] is accepted although its response is not a row of
    the response set.  For a slate of two trajectories the response set is
    [[0, 1], [1, 0]]; the response [0, 1] is accepted, and so is [1, 1],
    which is no permutation: the membership test compares elementwise and
    asks whether any element matches. *)
Theorem FullRanking_accepts_non_permutation (h : heap)
    (t0 t1 : basics.Trajectory) :
  ∃ q h',
    FullRankingQuery.new (basics.Slate_list [t0; t1]) h = (inr q, h') ∧
    attribute h' q attr.response_set = Some (Array2 [[0; 1]; [1; 0]]) ∧
    (∃ r h'', FullRanking.new q [0; 1] h' = (inr r, h'') ∧
              attribute h'' r attr.response = Some (R_list [0; 1])) ∧
    (∃ r h'', FullRanking.new q [1; 1] h' = (inr r, h'') ∧
              attribute h'' r attr.response = Some (R_list [1; 1])).
Proof.
  rewrite FullRankingQuery_new_spec. unfold query_new_outcome. simpl.
  eexists _, _. split; [done|]. rewrite attribute_fresh. simpl.
  split; [done|].
  split; rewrite FullRanking_new_spec; unfold response_new_outcome;
    rewrite attribute_fresh; simpl;
    eexists _, _; (split; [done|]); by rewrite attribute_fresh.
Qed.

(** ** Slate assignment *)

(** C3, as the code has it: the cardinality constraint holds of every query
    that a constructor returns (K >= 2 for [PreferenceQuery] and
    [FullRankingQuery], K = 2 for [WeakComparisonQuery]); an assignment to
    [slate] is a full reset of [_slate], [K] and [response_set], which are
    recomputed from the assigned slate alone, and it does not check the
    cardinality: K is the size of the assigned slate, whatever it is. *)
Theorem slate_cardinality_at_construction_and_reset (h : heap)
    (slate : basics.slate_argument) (l : list basics.Trajectory) :
  slate_items slate = Some l →
  let k := Z.of_nat (length l) in
  let ts := {| basics.trajectories := l |} in
  (∀ q h', PreferenceQuery.new slate h = (inr q, h') →
     attribute h' q attr.K = Some k ∧ 2 ≤ k) ∧
  (∀ q h', FullRankingQuery.new slate h = (inr q, h') →
     attribute h' q attr.K = Some k ∧ 2 ≤ k) ∧
  (∀ q h', WeakComparisonQuery.new slate h = (inr q, h') →
     attribute h' q attr.K = Some k ∧ k = 2) ∧
  (∀ q, is_Some (h !! q) →
     (∃ h', PreferenceQuery.slate_setter q slate h = (inr (), h') ∧
        attribute h' q attr._slate = Some ts ∧
        attribute h' q attr.K = Some k ∧
        attribute h' q attr.response_set = Some (Array1 (np_arange k))) ∧
     (∃ h', FullRankingQuery.slate_setter q slate h = (inr (), h') ∧
        attribute h' q attr._slate = Some ts ∧
        attribute h' q attr.K = Some k ∧
        attribute h' q attr.response_set
        = Some (Array2 (itertools_permutations (np_arange k)))) ∧
     (∃ h', WeakComparisonQuery.slate_setter q slate h = (inr (), h') ∧
        attribute h' q attr._slate = Some ts ∧
        attribute h' q attr.K = Some k ∧
        attribute h' q attr.response_set = Some (Array1 [-1; 0; 1]))).
Proof.
  intros Hl k ts.
  rewrite PreferenceQuery_new_spec, FullRankingQuery_new_spec,
    WeakComparisonQuery_new_spec.
  unfold query_new_outcome. rewrite Hl. fold k. repeat split.
  - destruct (2 <=? k); simplify_eq/=. by rewrite attribute_fresh.
  - destruct (2 <=? k) eqn:Hk; simplify_eq/=. lia.
  - destruct (2 <=? k); simplify_eq/=. by rewrite attribute_fresh.
  - destruct (2 <=? k) eqn:Hk; simplify_eq/=. lia.
  - destruct (k =? 2); simplify_eq/=. by rewrite attribute_fresh.
  - destruct (k =? 2) eqn:Hk; simplify_eq/=. lia.
  - destruct H as [o Ho]. eexists.
    split; [by apply (PreferenceQuery_slate_setter_spec _ _ _ _ _ Ho Hl)|].
    unfold attribute. by rewrite (lookup_insert_same _ _ _ _ Ho).
  - destruct H as [o Ho]. eexists.
    split; [by apply (FullRankingQuery_slate_setter_spec _ _ _ _ _ Ho Hl)|].
    unfold attribute. by rewrite (lookup_insert_same _ _ _ _ Ho).
  - destruct H as [o Ho]. eexists.
    split; [by apply (WeakComparisonQuery_slate_setter_spec _ _ _ _ _ Ho Hl)|].
    unfold attribute. by rewrite (lookup_insert_same _ _ _ _ Ho).
Qed.

Lemma slate_cardinality_at_construction_and_reset_witness :
  let h := (PreferenceQuery.new
              (basics.Slate_list [example_trajectory; example_trajectory])
              []).2 in
  ∃ h',
    PreferenceQuery.slate_setter 0%nat
      (basics.Slate_list [example_trajectory; example_trajectory;
                          example_trajectory]) h = (inr (), h') ∧
    attribute h' 0%nat attr._slate
    = Some {| basics.trajectories :=
                [example_trajectory; example_trajectory; example_trajectory] |} ∧
    attribute h' 0%nat attr.K = Some 3 ∧
    attribute h' 0%nat attr.response_set = Some (Array1 [0; 1; 2]).
Proof.
  intros h.
  apply (slate_cardinality_at_construction_and_reset h
           (basics.Slate_list [example_trajectory; example_trajectory;
                               example_trajectory])
           [example_trajectory; example_trajectory; example_trajectory]
           eq_refl).
  by eexists.
Defined.

(** C3 does not hold as stated: after the construction of a
    [PreferenceQuery] with two trajectories, the assignment of a slate with
    one trajectory succeeds and leaves K = 1; likewise a
    [WeakComparisonQuery] can be left with K = 3. *)
Lemma slate_assignment_breaks_cardinality :
  (∃ h h',
     PreferenceQuery.new
       (basics.Slate_list [example_trajectory; example_trajectory]) []
     = (inr 0%nat, h) ∧
     PreferenceQuery.slate_setter 0%nat
       (basics.Slate_list [example_trajectory]) h = (inr (), h') ∧
     attribute h' 0%nat attr.K = Some 1 ∧ ¬ (2 ≤ 1)) ∧
  (∃ h h',
     WeakComparisonQuery.new
       (basics.Slate_list [example_trajectory; example_trajectory]) []
     = (inr 0%nat, h) ∧
     WeakComparisonQuery.slate_setter 0%nat
       (basics.Slate_list [example_trajectory; example_trajectory;
                           example_trajectory]) h = (inr (), h') ∧
     attribute h' 0%nat attr.K = Some 3 ∧ 3 ≠ 2).
Proof.
  split; eexists _, _; (split; [reflexivity|]); (split; [reflexivity|]);
    (split; [reflexivity|lia]).
Qed.

(** ** Responses leave their query alone *)

Lemma response_new_outcome_heap c q resp check h :
  ∃ o, (response_new_outcome c q resp check h).2 = h ++ [o].
Proof.
  unfold response_new_outcome.
  destruct (attribute h q attr.response_set) as [rs|]; [|by eexists].
  destruct (check rs) as [e|[|]]; by eexists.
Qed.

(** C10: the construction of a [Preference], a [WeakComparison] or a
    [FullRanking] leaves the object of the wrapped query as it was, with its
    [K], slate and [response_set], for every response and whether or not the
    construction succeeds. *)
Theorem response_construction_preserves_query (h : heap) (q : loc)
    (o : object) :
  h !! q = Some o →
  (∀ r, (Preference.new q r h).2 !! q = Some o) ∧
  (∀ r, (WeakComparison.new q r h).2 !! q = Some o) ∧
  (∀ l, (FullRanking.new q l h).2 !! q = Some o).
Proof.
  intros Ho. pose proof (lookup_lt_Some _ _ _ Ho) as Hq. repeat split.
  - intros r. rewrite Preference_new_spec.
    destruct (response_new_outcome_heap C_Preference q r
                (λ rs, array_contains rs r) h) as [o' ->].
    by rewrite lookup_old.
  - intros r. rewrite WeakComparison_new_spec. simpl. by rewrite lookup_old.
  - intros l. rewrite FullRanking_new_spec.
    destruct (response_new_outcome_heap C_FullRanking q (R_list l)
                (λ rs, array_contains_list rs l) h) as [o' ->].
    by rewrite lookup_old.
Qed.

Lemma response_construction_preserves_query_witness :
  let new := PreferenceQuery.new
               (basics.Slate_list [example_trajectory; example_trajectory]) [] in
  ∃ o, new.2 !! 0%nat = Some o ∧
       (Preference.new 0%nat (R_int 7) new.2).2 !! 0%nat = Some o.
Proof.
  intros new. eexists. split; [reflexivity|].
  exact (proj1 (response_construction_preserves_query new.2 0%nat _ eq_refl)
           (R_int 7)).
Defined.

(** ** Demonstrations *)

Lemma np_all_zip_with_isclose (a b : state) :
  length a = length b →
  np_all (zip_with isclose a b) = true
  ↔ Forall2 (λ x y, isclose x y = true) a b.
Proof.
  revert b. induction a as [|x a IH]; intros [|y b] Hlen; simplify_eq/=.
  - split; [constructor|done].
  - unfold np_all in *. simpl. rewrite andb_true_iff, IH by done.
    unfold id. split.
    + intros [??]. by constructor.
    + intros H. by inversion H.
Qed.

Lemma alter_first_new (f : object → object) (h rest : heap) (o : object) :
  alter f (length h) (h ++ o :: rest) = h ++ f o :: rest.
Proof. rewrite alter_app_r_alt by lia. by rewrite Nat.sub_diag. Qed.

Lemma alter_second_new (f : object → object) (h rest : heap) (o1 o2 : object) :
  alter f (S (length h)) (h ++ o1 :: o2 :: rest) = h ++ o1 :: f o2 :: rest.
Proof.
  rewrite alter_app_r_alt by lia.
  by replace (S (length h) - length h)%nat with 1%nat by lia.
Qed.

Lemma lookup_first_new (h rest : heap) (o : object) :
  (h ++ o :: rest) !! length h = Some o.
Proof. by rewrite list_lookup_middle. Qed.

Lemma lookup_second_new (h rest : heap) (o1 o2 : object) :
  (h ++ o1 :: o2 :: rest) !! S (length h) = Some o2.
Proof.
  rewrite lookup_app_r by lia.
  by replace (S (length h) - length h)%nat with 1%nat by lia.
Qed.

Lemma Demonstration_new_None (t : basics.Trajectory) (h : heap) :
  Demonstration.new t None h =
    (inr (length h),
     h ++ [with_features (basics.features t)
             (with_trajectory t
                (with_query (S (length h)) (empty_object C_Demonstration)));
           with_initial_state (basics.traj_first t).1
             (empty_object C_DemonstrationQuery)]).
Proof.
  unfold Demonstration.new, Demonstration.__init__, DemonstrationQuery.new,
    DemonstrationQuery.__init__, QueryWithResponse.__init__, Query.__init__,
    basics.Trajectory_getitem0.
  destruct (basics.traj_first t) as [s a]. run.
  rewrite length_app. simpl. rewrite Nat.add_1_r, <- app_assoc. simpl.
  by rewrite alter_second_new, !alter_first_new.
Qed.

Lemma Demonstration_new_Some (t : basics.Trajectory) (q : loc)
    (given : state) (h : heap) :
  attribute h q attr.initial_state = Some given →
  Demonstration.new t (Some q) h =
    match np_isclose given (basics.traj_first t).1 with
    | None => (inl ValueError, h ++ [empty_object C_Demonstration])
    | Some close =>
        if np_all close
        then (inr (length h),
              h ++ [with_features (basics.features t)
                      (with_trajectory t
                         (with_query q (empty_object C_Demonstration)))])
        else (inl AssertionError, h ++ [empty_object C_Demonstration])
    end.
Proof.
  intros Hq.
  unfold Demonstration.new, Demonstration.__init__,
    QueryWithResponse.__init__, basics.Trajectory_getitem0.
  destruct (basics.traj_first t) as [s a]. run.
  change (?h' !! q ≫= attr.initial_state)
    with (attribute h' q attr.initial_state).
  rewrite attribute_new_object, Hq by done. simpl.
  destruct (np_isclose given s) as [close|]; simpl; [|done].
  destruct (np_all close); simpl; [|done].
  by rewrite !alter_fresh.
Qed.

Lemma np_all_map_isclose_l (x : float) (b : state) :
  np_all (map (λ y, isclose x y) b) = true
  ↔ Forall (λ y, isclose x y = true) b.
Proof.
  unfold np_all. induction b as [|y b IH]; simpl.
  - split; [constructor|done].
  - by rewrite andb_true_iff, IH, Forall_cons.
Qed.

Lemma np_all_map_isclose_r (y : float) (a : state) :
  np_all (map (λ x, isclose x y) a) = true
  ↔ Forall (λ x, isclose x y = true) a.
Proof.
  unfold np_all. induction a as [|x a IH]; simpl.
  - split; [constructor|done].
  - by rewrite andb_true_iff, IH, Forall_cons.
Qed.

(** [np.isclose] raises exactly when the shapes cannot be broadcast. *)
Lemma np_isclose_None (a b : state) :
  np_isclose a b = None ↔ ¬ broadcastable a b.
Proof.
  unfold np_isclose, broadcastable.
  destruct (length a =? length b)%nat eqn:Hlen.
  - apply Nat.eqb_eq in Hlen. split; [done|]. intros []. by left.
  - apply Nat.eqb_neq in Hlen.
    destruct a as [|x [|??]], b as [|y [|??]]; simpl in *;
      split; try done; try (intros []; auto); intros [?|[?|?]]; done.
Qed.

(** When it does not raise, all entries of its result are true exactly when
    the arrays are elementwise close. *)
Lemma np_isclose_Some (a b : state) (bs : list bool) :
  np_isclose a b = Some bs →
  np_all bs = true ↔ close_elementwise a b.
Proof.
  unfold np_isclose, close_elementwise.
  destruct (length a =? length b)%nat eqn:Hlen.
  - apply Nat.eqb_eq in Hlen. intros [= <-].
    rewrite np_all_zip_with_isclose by done. split; [by left|].
    intros [H|[(x & -> & H)|(y & -> & H)]]; [done| |].
    + destruct b as [|y [|??]]; try done. inversion_clear H.
      by repeat constructor.
    + destruct a as [|x [|??]]; try done. inversion_clear H.
      by repeat constructor.
  - apply Nat.eqb_neq in Hlen.
    assert (¬ Forall2 (λ x y, isclose x y = true) a b) as Hno.
    { by intros ?%Forall2_length. }
    destruct a as [|x [|x' a]].
    + destruct b as [|y [|??]]; [done| |done]. intros [= <-]. simpl.
      split; [|done]. intros _. right. right. by exists y.
    + intros [= <-]. rewrite np_all_map_isclose_l. split.
      * intros H. right. left. by exists x.
      * intros [H|[(? & [= <-] & H)|(y & -> & _)]]; done.
    + destruct b as [|y [|??]]; [done| |done]. intros [= <-].
      change (isclose x y :: isclose x' y :: map (λ x0, isclose x0 y) a)
        with (map (λ x0, isclose x0 y) (x :: x' :: a)).
      rewrite np_all_map_isclose_r. split.
      * intros H. right. right. by exists y.
      * intros [H|[(? & [=] & _)|(? & [= <-] & H)]]; done.
Qed.

(** C9: without a query, the construction of a [Demonstration] succeeds
    and makes a [DemonstrationQuery] whose [initial_state] is the first state
    of the trajectory.  With a query, it succeeds when the [initial_state] of
    the query is elementwise close to that first state, and then wraps the
    given query; it fails with an assertion error exactly when the two can
    be compared entry by entry and are not close; and it fails with
    [ValueError] exactly when they cannot be compared, for their numbers of
    entries differ and neither is one.  A demonstration that is built holds
    the trajectory and its features. *)
Theorem Demonstration_construction (h : heap) (t : basics.Trajectory) :
  let first := (basics.Trajectory_getitem0 t).1 in
  (∃ d dq h',
     Demonstration.new t None h = (inr d, h') ∧
     attribute h' d attr.query = Some dq ∧
     h !! dq = None ∧
     class_of <$> h' !! dq = Some C_DemonstrationQuery ∧
     attribute h' dq attr.initial_state = Some first ∧
     attribute h' d attr.trajectory = Some t ∧
     attribute h' d attr.features = Some (basics.features t)) ∧
  ∀ (q : loc) (given : state),
    attribute h q attr.initial_state = Some given →
    ((∃ h', Demonstration.new t (Some q) h = (inl AssertionError, h'))
     ↔ broadcastable given first ∧ ¬ close_elementwise given first) ∧
    ((∃ h', Demonstration.new t (Some q) h = (inl ValueError, h'))
     ↔ ¬ broadcastable given first) ∧
    (close_elementwise given first →
     ∃ d h',
       Demonstration.new t (Some q) h = (inr d, h') ∧
       attribute h' d attr.query = Some q ∧
       attribute h' d attr.trajectory = Some t ∧
       attribute h' d attr.features = Some (basics.features t)).
Proof.
  intros first. unfold basics.Trajectory_getitem0 in first. split.
  - rewrite Demonstration_new_None. fold first.
    eexists _, _, _. split; [done|].
    unfold attribute. rewrite lookup_first_new. simpl.
    split; [done|]. split; [apply lookup_ge_None_2; lia|].
    by rewrite !lookup_second_new.
  - intros q given Hq. rewrite (Demonstration_new_Some _ _ _ _ Hq).
    fold first.
    pose proof (np_isclose_None given first) as Hnone.
    pose proof (np_isclose_Some given first) as Hsome.
    destruct (np_isclose given first) as [close|].
    + specialize (Hsome close eq_refl).
      assert (broadcastable given first) as Hb.
      { destruct (decide (length given = length first)) as [|Hne];
          [by left|].
        destruct (decide (length given = 1%nat)) as [|Hg]; [by right; left|].
        destruct (decide (length first = 1%nat)) as [|Hf]; [by right; right|].
        assert (Some close = None) as Heq; [|done].
        apply Hnone. by intros [?|[?|?]]. }
      destruct (np_all close) eqn:Hall.
      * split; [|split].
        -- split; [by intros [h' ?]|]. intros [_ Hno]. destruct Hno.
           by apply Hsome.
        -- split; [by intros [h' ?]|done].
        -- intros _. eexists _, _. split; [done|].
           by rewrite !attribute_fresh.
      * assert (¬ close_elementwise given first) as Hno.
        { intros Hclose%Hsome. done. }
        split; [|split].
        -- split; [done|]. intros _. by eexists.
        -- split; [by intros [h' ?]|done].
        -- done.
    + assert (¬ broadcastable given first) as Hb by (by apply Hnone).
      split; [|split].
      * split; [by intros [h' ?]|by intros [? _]].
      * split; [done|]. intros _. by eexists.
      * intros Hclose. destruct Hb.
        destruct Hclose as [H|[(x & -> & _)|(y & Hy & _)]].
        -- left. by eapply Forall2_length.
        -- by right; left.
        -- right; right. by rewrite Hy.
Qed.

Lemma Demonstration_construction_witness :
  let h := (DemonstrationQuery.new [0x1.00000004p+0%float; 2%float] []).2 in
  ∃ d h',
    Demonstration.new example_trajectory (Some 0%nat) h = (inr d, h') ∧
    attribute h' d attr.query = Some 0%nat ∧
    attribute h' d attr.trajectory = Some example_trajectory ∧
    attribute h' d attr.features = Some [3%float].
Proof.
  intros h.
  apply (proj2 (proj2 (proj2 (Demonstration_construction h example_trajectory)
                         0%nat [0x1.00000004p+0%float; 2%float] eq_refl))).
  left. repeat constructor.
Defined.

(** C9 does not hold as stated: the [initial_state] of the given query has
    three entries and the first state of the trajectory has two, so the two
    are not elementwise close; the construction fails, but with the
    [ValueError] of the comparison and not with an assertion error. *)
Lemma Demonstration_mismatch_is_no_assertion_error :
  let h := (DemonstrationQuery.new [1%float; 2%float; 3%float] []).2 in
  let first := (basics.Trajectory_getitem0 example_trajectory).1 in
  attribute h 0%nat attr.initial_state = Some [1%float; 2%float; 3%float] ∧
  ¬ close_elementwise [1%float; 2%float; 3%float] first ∧
  Demonstration.new example_trajectory (Some 0%nat) h
  = (inl ValueError, h ++ [empty_object C_Demonstration]) ∧
  ¬ ∃ h', Demonstration.new example_trajectory (Some 0%nat) h
          = (inl AssertionError, h').
Proof.
  intros h first. split; [done|]. split; [|split; [done|]].
  - intros [H|[(x & [=] & _)|(y & [=] & _)]].
    by apply Forall2_length in H.
  - by intros [h' ?].
Qed.

(** ** [isinteger] *)

Lemma digit_value_range (c : ascii) (d : Z) :
  digit_value c = Some d → (48 ≤ nat_of_ascii c ≤ 57)%nat.
Proof.
  unfold digit_value.
  destruct (Nat.leb_spec 48 (nat_of_ascii c)),
    (Nat.leb_spec (nat_of_ascii c) 57); simpl; intros; simplify_eq; lia.
Qed.

Lemma Py_ISSPACE_range (c : ascii) :
  Py_ISSPACE c = true → (nat_of_ascii c ≤ 32)%nat.
Proof.
  unfold Py_ISSPACE.
  destruct (Nat.eqb_spec (nat_of_ascii c) 32),
    (Nat.leb_spec 9 (nat_of_ascii c)),
    (Nat.leb_spec (nat_of_ascii c) 13); simpl; intros; simplify_eq; lia.
Qed.

Lemma is_underscore_eq (c : ascii) : is_underscore c = true → c = "_"%char.
Proof. apply Ascii.eqb_eq. Qed.

Lemma digit_not_space (c : ascii) (d : Z) :
  digit_value c = Some d → Py_ISSPACE c = false.
Proof.
  intros Hd%digit_value_range. apply not_true_is_false.
  intros Hs%Py_ISSPACE_range. lia.
Qed.

Lemma digit_not_underscore (c : ascii) (d : Z) :
  digit_value c = Some d → is_underscore c = false.
Proof.
  intros Hd. apply not_true_is_false. intros ->%is_underscore_eq. done.
Qed.

Lemma digit_not_sign (c : ascii) (d : Z) :
  digit_value c = Some d → Ascii.eqb c "+" = false ∧ Ascii.eqb c "-" = false.
Proof.
  intros Hd. split; apply not_true_is_false; intros ->%Ascii.eqb_eq; done.
Qed.

Lemma space_not_digit (c : ascii) : Py_ISSPACE c = true → digit_value c = None.
Proof.
  intros Hs%Py_ISSPACE_range.
  destruct (digit_value c) as [d|] eqn:Hd; [|done].
  apply digit_value_range in Hd. lia.
Qed.

Lemma space_not_underscore (c : ascii) :
  Py_ISSPACE c = true → is_underscore c = false.
Proof.
  intros Hs. apply not_true_is_false. intros ->%is_underscore_eq. done.
Qed.

Lemma all_space_nil : all_space "".
Proof. constructor. Qed.

Lemma all_space_cons (c : ascii) (s : string) :
  all_space (String c s) ↔ Py_ISSPACE c = true ∧ all_space s.
Proof. unfold all_space. simpl. by rewrite Forall_cons. Qed.

Lemma skip_space_app (before s : string) :
  all_space before → skip_space (before ++ s) = skip_space s.
Proof.
  induction before as [|c before IH]; simpl; [done|].
  intros [-> ?]%all_space_cons. by apply IH.
Qed.

Lemma skip_space_stop (s : string) :
  Py_ISSPACE (peek s) = false → skip_space s = s.
Proof. destruct s as [|c s]; simpl; [done|]. by intros ->. Qed.

Lemma skip_space_all (s : string) : all_space s → skip_space s = ""%string.
Proof.
  induction s as [|c s IH]; simpl; [done|].
  intros [-> ?]%all_space_cons. by apply IH.
Qed.

Lemma skip_space_empty (s : string) : skip_space s = ""%string → all_space s.
Proof.
  induction s as [|c s IH]; simpl; [intros; apply all_space_nil|].
  destruct (Py_ISSPACE c) eqn:Hc; [|done].
  intros H. apply all_space_cons. auto.
Qed.

Lemma skip_space_split (s : string) :
  ∃ before, s = (before ++ skip_space s)%string ∧ all_space before ∧
            Py_ISSPACE (peek (skip_space s)) = false.
Proof.
  induction s as [|c s (before & Hs & Hb & Hp)]; simpl.
  - exists ""%string. split; [done|]. split; [apply all_space_nil|done].
  - destruct (Py_ISSPACE c) eqn:Hc.
    + exists (String c before). simpl. split; [by rewrite <- Hs|].
      split; [by apply all_space_cons|done].
    + exists ""%string. split; [done|]. split; [apply all_space_nil|done].
Qed.

Lemma all_space_peek (s : string) :
  all_space s →
  digit_value (peek s) = None ∧ is_underscore (peek s) = false.
Proof.
  destruct s as [|c s]; simpl; [done|].
  intros [Hc _]%all_space_cons.
  split; [by apply space_not_digit|by apply space_not_underscore].
Qed.

Lemma length_append (a b : string) :
  String.length (a ++ b) = (String.length a + String.length b)%nat.
Proof. induction a as [|c a IH]; simpl; [done|]. by rewrite IH. Qed.

Lemma digits_nonempty (d : string) :
  digits_with_underscores d → (0 < String.length d)%nat.
Proof. destruct 1; simpl; lia. Qed.

Lemma digits_peek (d tail : string) :
  digits_with_underscores d → ∃ v, digit_value (peek (d ++ tail)) = Some v.
Proof. destruct 1; simpl; eauto. Qed.

Lemma scan_digits_stop (prev : ascii) (acc : Z) (tail : string) :
  digit_value (peek tail) = None → is_underscore (peek tail) = false →
  scan_digits prev acc tail = Some (prev, acc, tail).
Proof. destruct tail as [|c tail]; simpl; [done|]. by intros -> ->. Qed.

(** The scan reads a run of digits with single underscores up to a
    character that is neither. *)
Lemma scan_digits_complete (d tail : string) :
  digits_with_underscores d →
  digit_value (peek tail) = None → is_underscore (peek tail) = false →
  ∀ prev acc, ∃ prev' z,
    scan_digits prev acc (d ++ tail) = Some (prev', z, tail) ∧
    is_underscore prev' = false.
Proof.
  intros Hd Htd Htu.
  induction Hd as [c v Hc|c v s Hc _ IH|c v s Hc _ IH]; intros prev acc;
    simpl; rewrite Hc.
  - rewrite scan_digits_stop by done. eexists _, _. split; [done|].
    by eapply digit_not_underscore.
  - apply IH.
  - simpl. rewrite (digit_not_underscore _ _ Hc). apply IH.
Qed.

(** What the scan has read, when it ends on a character that is not an
    underscore: nothing, or digits with single underscores, or, after a
    character that is no underscore, an underscore and then such digits. *)
Lemma scan_digits_sound (s : string) :
  ∀ prev acc prev' z rest,
    scan_digits prev acc s = Some (prev', z, rest) →
    is_underscore prev' = false →
    (s = rest ∧ prev' = prev) ∨
    (∃ d, s = (d ++ rest)%string ∧ digits_with_underscores d) ∨
    (is_underscore prev = false ∧
     ∃ d, s = String "_" (d ++ rest) ∧ digits_with_underscores d).
Proof.
  induction s as [|c s IH]; intros prev acc prev' z rest; simpl.
  - intros [= <- <- <-] _. by left.
  - destruct (digit_value c) as [v|] eqn:Hc.
    + intros Hscan Hprev'. right. left.
      destruct (IH _ _ _ _ _ Hscan Hprev')
        as [[-> ->]|[(d & -> & Hd)|(_ & d & -> & Hd)]].
      * exists (String c ""). split; [done|]. by eapply dwu_digit.
      * exists (String c d). split; [done|]. by eapply dwu_more.
      * exists (String c (String "_" d)). split; [done|].
        by eapply dwu_underscore.
    + destruct (is_underscore c) eqn:Hu.
      * destruct (is_underscore prev) eqn:Hp; [done|].
        intros Hscan Hprev'. apply is_underscore_eq in Hu as ->.
        destruct (IH _ _ _ _ _ Hscan Hprev')
          as [[-> ->]|[(d & -> & Hd)|(Hcontra & _)]]; [done| |done].
        right. right. split; [done|]. by exists d.
      * intros [= <- <- <-] _. by left.
Qed.

Lemma parse_unsigned_complete (d after : string) :
  digits_with_underscores d → all_space after →
  is_Some (parse_unsigned (d ++ after)).
Proof.
  intros Hd Hafter. unfold parse_unsigned.
  destruct (digits_peek d after Hd) as [v Hv].
  rewrite (digit_not_underscore _ _ Hv).
  destruct (all_space_peek _ Hafter) as [Htd Htu].
  destruct (scan_digits_complete d after Hd Htd Htu "000"%char 0)
    as (prev' & z & -> & ->).
  rewrite length_append.
  pose proof (digits_nonempty d Hd).
  rewrite (proj2 (Nat.eqb_neq _ _)) by lia.
  by rewrite skip_space_all.
Qed.

Lemma parse_unsigned_sound (s : string) :
  is_Some (parse_unsigned s) →
  ∃ d after, s = (d ++ after)%string ∧ digits_with_underscores d ∧
             all_space after.
Proof.
  unfold parse_unsigned. destruct (is_underscore (peek s)) eqn:Hu.
  { by intros [? ?]. }
  destruct (scan_digits "000" 0 s) as [[[prev' z] rest]|] eqn:Hscan;
    [|by intros [? ?]].
  destruct (is_underscore prev') eqn:Hprev'; [by intros [? ?]|].
  destruct (Nat.eqb_spec (String.length rest) (String.length s)) as [|Hlen];
    [by intros [? ?]|].
  destruct (skip_space rest) eqn:Hrest; [|by intros [? ?]].
  intros _. apply skip_space_empty in Hrest.
  destruct (scan_digits_sound _ _ _ _ _ _ Hscan Hprev')
    as [[-> _]|[(d & -> & Hd)|(_ & d & -> & _)]]; [done| |done].
  by exists d, rest.
Qed.

(** The parser accepts exactly the literals in ASCII characters. *)
Lemma parse_int_integer_literal (s : string) :
  is_Some (parse_int s) ↔ integer_literal s.
Proof.
  unfold parse_int, integer_literal. split.
  - destruct (skip_space_split s) as (before & Hs & Hbefore & Hpeek).
    destruct (Ascii.eqb (peek (skip_space s)) "+") eqn:Hplus;
      [|destruct (Ascii.eqb (peek (skip_space s)) "-") eqn:Hminus].
    + intros (d & after & Hd & ? & ?)%parse_unsigned_sound.
      exists before, (String "+" d), after. repeat split; try done.
      * rewrite Hs at 1. f_equal.
        destruct (skip_space s) as [|c s']; [done|].
        simpl in *. apply Ascii.eqb_eq in Hplus as ->. by rewrite Hd.
      * by constructor.
    + rewrite fmap_is_Some.
      intros (d & after & Hd & ? & ?)%parse_unsigned_sound.
      exists before, (String "-" d), after. repeat split; try done.
      * rewrite Hs at 1. f_equal.
        destruct (skip_space s) as [|c s']; [done|].
        simpl in *. apply Ascii.eqb_eq in Hminus as ->. by rewrite Hd.
      * by constructor.
    + intros (d & after & Hd & ? & ?)%parse_unsigned_sound.
      exists before, d, after. repeat split; try done.
      * by rewrite Hs at 1; rewrite Hd.
      * by constructor.
  - intros (before & body & after & -> & Hbefore & Hbody & Hafter).
    rewrite skip_space_app by done.
    destruct Hbody as [d Hd|d Hd|d Hd].
    + destruct (digits_peek d after Hd) as [v Hv].
      rewrite skip_space_stop by (by eapply digit_not_space).
      destruct (digit_not_sign _ _ Hv) as [-> ->].
      by apply parse_unsigned_complete.
    + simpl. by apply parse_unsigned_complete.
    + simpl. rewrite fmap_is_Some. by apply parse_unsigned_complete.
Qed.

(** What the parser reads in place of the characters of a text. *)
Lemma nat_of_to_ascii (py : interpreter) (ch : N) :
  nat_of_ascii (to_ascii py ch) =
    if (ch <? 128)%N then N.to_nat ch
    else if Py_UNICODE_ISSPACE py ch then 32%nat
    else match Py_UNICODE_TODECIMAL py ch with
         | Some d => (48 + fin_to_nat d)%nat
         | None => 63%nat
         end.
Proof.
  unfold to_ascii. destruct (N.ltb_spec ch 128) as [Hlt|Hge].
  - unfold nat_of_ascii. rewrite N_ascii_embedding; [done|lia].
  - destruct (Py_UNICODE_ISSPACE py ch); [done|].
    destruct (Py_UNICODE_TODECIMAL py ch) as [d|]; [|done].
    unfold ascii_digit. apply nat_ascii_embedding.
    pose proof (fin_to_nat_lt d). lia.
Qed.

Lemma ascii_eq_nat (c c' : ascii) : nat_of_ascii c = nat_of_ascii c' → c = c'.
Proof.
  intros H. by rewrite <- (ascii_nat_embedding c), H, ascii_nat_embedding.
Qed.

Lemma Py_ISSPACE_to_ascii (py : interpreter) (ch : N) :
  Py_ISSPACE (to_ascii py ch) = is_whitespace py ch.
Proof.
  unfold Py_ISSPACE, is_whitespace. rewrite nat_of_to_ascii.
  destruct (N.ltb_spec ch 128) as [Hlt|Hge].
  - destruct (Nat.eqb_spec (N.to_nat ch) 32), (N.eqb_spec ch 32),
      (Nat.leb_spec 9 (N.to_nat ch)), (N.leb_spec 9 ch),
      (Nat.leb_spec (N.to_nat ch) 13), (N.leb_spec ch 13);
      simpl; try done; lia.
  - destruct (Py_UNICODE_ISSPACE py ch); [done|].
    destruct (Py_UNICODE_TODECIMAL py ch) as [d|]; [|done].
    pose proof (fin_to_nat_lt d).
    remember (48 + fin_to_nat d)%nat as n.
    destruct (Nat.eqb_spec n 32), (Nat.leb_spec 9 n), (Nat.leb_spec n 13);
      simpl; try done; lia.
Qed.

Lemma digit_value_to_ascii (py : interpreter) (ch : N) :
  is_Some (digit_value (to_ascii py ch)) ↔ is_decimal_digit py ch = true.
Proof.
  unfold digit_value, is_decimal_digit. rewrite nat_of_to_ascii.
  destruct (N.ltb_spec ch 128) as [Hlt|Hge].
  - destruct (Nat.leb_spec 48 (N.to_nat ch)), (N.leb_spec 48 ch),
      (Nat.leb_spec (N.to_nat ch) 57), (N.leb_spec ch 57);
      simpl; split; try done; try lia; by intros [??].
  - destruct (Py_UNICODE_ISSPACE py ch); cbn [negb andb].
    { split; [by intros [??]|done]. }
    destruct (Py_UNICODE_TODECIMAL py ch) as [d|].
    + pose proof (fin_to_nat_lt d).
      remember (48 + fin_to_nat d)%nat as n.
      destruct (Nat.leb_spec 48 n), (Nat.leb_spec n 57); try lia.
      cbn [andb]. split; [|by eexists]. intros _.
      by apply bool_decide_eq_true.
    + split; [by intros [??]|]. intros H%bool_decide_eq_true.
      by destruct H.
Qed.

Lemma to_ascii_eq (py : interpreter) (ch : N) (c : ascii) :
  (nat_of_ascii c < 128)%nat →
  nat_of_ascii c ≠ 32%nat → nat_of_ascii c ≠ 63%nat →
  digit_value c = None →
  to_ascii py ch = c ↔ ch = N_of_ascii c.
Proof.
  intros Hc H32 H63 Hd. split.
  - intros <-. rewrite nat_of_to_ascii in Hc, H32, H63.
    unfold digit_value in Hd. rewrite nat_of_to_ascii in Hd.
    unfold to_ascii.
    destruct (N.ltb_spec ch 128) as [Hlt|Hge].
    + rewrite N_ascii_embedding; [done|lia].
    + destruct (Py_UNICODE_ISSPACE py ch); [done|].
      destruct (Py_UNICODE_TODECIMAL py ch) as [d|]; [|done].
      pose proof (fin_to_nat_lt d).
      remember (48 + fin_to_nat d)%nat as n.
      destruct (Nat.leb_spec 48 n), (Nat.leb_spec n 57); try lia.
      cbn [andb] in Hd. discriminate Hd.
  - intros ->. unfold to_ascii.
    assert (N_of_ascii c < 128)%N as Hlt.
    { unfold nat_of_ascii in Hc. lia. }
    rewrite (proj2 (N.ltb_lt _ _)) by done. apply ascii_N_embedding.
Qed.

Lemma is_underscore_to_ascii (py : interpreter) (ch : N) :
  is_underscore (to_ascii py ch) = true ↔ ch = 95%N.
Proof.
  unfold is_underscore. rewrite Ascii.eqb_eq.
  by rewrite (to_ascii_eq py ch "_") by (vm_compute; done || lia).
Qed.

Lemma to_ascii_plus (py : interpreter) (ch : N) :
  to_ascii py ch = "+"%char ↔ ch = 43%N.
Proof. by rewrite (to_ascii_eq py ch "+") by (vm_compute; done || lia). Qed.

Lemma to_ascii_minus (py : interpreter) (ch : N) :
  to_ascii py ch = "-"%char ↔ ch = 45%N.
Proof. by rewrite (to_ascii_eq py ch "-") by (vm_compute; done || lia). Qed.

Lemma ascii_image_cons (py : interpreter) (ch : N) (t : text) :
  ascii_image py (ch :: t) = String (to_ascii py ch) (ascii_image py t).
Proof. done. Qed.

Lemma ascii_image_app (py : interpreter) (t1 t2 : text) :
  ascii_image py (t1 ++ t2) = (ascii_image py t1 ++ ascii_image py t2)%string.
Proof.
  induction t1 as [|ch t1 IH]; [done|].
  rewrite <- app_comm_cons, !ascii_image_cons, IH. done.
Qed.

(** A split of what the parser reads is a split of the text. *)
Lemma ascii_image_split (py : interpreter) (a b : string) :
  ∀ t, ascii_image py t = (a ++ b)%string →
  ∃ t1 t2, t = t1 ++ t2 ∧ ascii_image py t1 = a ∧ ascii_image py t2 = b.
Proof.
  induction a as [|c a IH]; intros t Ht.
  - by exists [], t.
  - destruct t as [|ch t]; [done|].
    rewrite ascii_image_cons in Ht. simpl in Ht. injection Ht as Hc Ht.
    destruct (IH t Ht) as (t1 & t2 & -> & <- & <-).
    exists (ch :: t1), t2. by rewrite ascii_image_cons, Hc.
Qed.

Lemma all_space_ascii_image (py : interpreter) (t : text) :
  all_space (ascii_image py t) ↔ text_space py t.
Proof.
  unfold all_space, text_space. induction t as [|ch t IH].
  - split; constructor.
  - rewrite ascii_image_cons. simpl.
    by rewrite !Forall_cons, IH, Py_ISSPACE_to_ascii.
Qed.

Lemma digits_ascii_image (py : interpreter) (t : text) :
  digits_with_underscores (ascii_image py t) ↔ text_digits py t.
Proof.
  split.
  - remember (ascii_image py t) as s eqn:Hs. intros Hd. revert t Hs.
    induction Hd as [c d Hc|c d s Hc Hd IH|c d s Hc Hd IH]; intros t Hs.
    + destruct t as [|ch [|??]]; try done. injection Hs as ->.
      constructor. apply digit_value_to_ascii. by exists d.
    + destruct t as [|ch t]; [done|]. rewrite ascii_image_cons in Hs.
      injection Hs as -> ->. apply td_more; [|by apply IH].
      apply digit_value_to_ascii. by exists d.
    + destruct t as [|ch [|ch' t]]; try done.
      rewrite !ascii_image_cons in Hs. injection Hs as -> Hu ->.
      symmetry in Hu. apply Ascii.eqb_eq in Hu.
      apply (is_underscore_to_ascii py) in Hu as ->.
      apply td_underscore; [|by apply IH].
      apply digit_value_to_ascii. by exists d.
  - induction 1 as [ch Hc|ch t Hc Hd IH|ch t Hc Hd IH].
    + apply digit_value_to_ascii in Hc as [d Hd].
      by apply (dwu_digit _ d).
    + apply digit_value_to_ascii in Hc as [d Hc].
      rewrite ascii_image_cons. by apply (dwu_more _ d).
    + apply digit_value_to_ascii in Hc as [d Hc].
      rewrite !ascii_image_cons.
      change (to_ascii py 95) with "_"%char.
      by apply (dwu_underscore _ d).
Qed.

Lemma signed_digits_ascii_image (py : interpreter) (t : text) :
  signed_digits (ascii_image py t) ↔ text_signed_digits py t.
Proof.
  split.
  - intros Hs. inversion Hs as [s Hd Heq|s Hd Heq|s Hd Heq].
    + apply tsd_plain. by apply digits_ascii_image.
    + destruct t as [|ch t]; [done|]. rewrite ascii_image_cons in Heq.
      injection Heq as Hch ->. symmetry in Hch.
      apply to_ascii_plus in Hch as ->.
      apply tsd_plus. by apply digits_ascii_image.
    + destruct t as [|ch t]; [done|]. rewrite ascii_image_cons in Heq.
      injection Heq as Hch ->. symmetry in Hch.
      apply to_ascii_minus in Hch as ->.
      apply tsd_minus. by apply digits_ascii_image.
  - intros [t' Hd|t' Hd|t' Hd].
    + apply sd_plain. by apply digits_ascii_image.
    + rewrite ascii_image_cons. change (to_ascii py 43) with "+"%char.
      apply sd_plus. by apply digits_ascii_image.
    + rewrite ascii_image_cons. change (to_ascii py 45) with "-"%char.
      apply sd_minus. by apply digits_ascii_image.
Qed.

(** The parser reads a literal in a text exactly when the text is one. *)
Lemma integer_literal_ascii_image (py : interpreter) (t : text) :
  integer_literal (ascii_image py t) ↔ text_integer_literal py t.
Proof.
  unfold integer_literal, text_integer_literal. split.
  - intros (before & body & after & Ht & Hbefore & Hbody & Hafter).
    apply ascii_image_split in Ht as (t1 & t23 & -> & <- & Ht).
    apply ascii_image_split in Ht as (t2 & t3 & -> & <- & <-).
    exists t1, t2, t3. split; [done|].
    by rewrite <- !all_space_ascii_image, <- signed_digits_ascii_image.
  - intros (t1 & t2 & t3 & -> & Hbefore & Hbody & Hafter).
    exists (ascii_image py t1), (ascii_image py t2), (ascii_image py t3).
    rewrite !ascii_image_app. split; [done|].
    by rewrite !all_space_ascii_image, signed_digits_ascii_image.
Qed.

Lemma count_digits_ascii_image (py : interpreter) (t : text) :
  count_digits (ascii_image py t) = number_of_digits py t.
Proof.
  unfold count_digits, number_of_digits. f_equal.
  induction t as [|ch t IH]; [done|].
  rewrite ascii_image_cons. cbn [list_ascii_of_string].
  rewrite !filter_cons.
  destruct (decide (is_Some (digit_value (to_ascii py ch)))) as [Hd|Hd],
    (decide (is_decimal_digit py ch = true)) as [Hc|Hc]; simpl.
  - by rewrite IH.
  - by apply digit_value_to_ascii in Hd.
  - by apply digit_value_to_ascii in Hc.
  - done.
Qed.

Lemma exceeds_max_str_digits_false (py : interpreter) (t : text) :
  exceeds_max_str_digits py (number_of_digits py t) = false
  ↔ digits_allowed py t.
Proof.
  unfold exceeds_max_str_digits, digits_allowed,
    _PY_LONG_MAX_STR_DIGITS_THRESHOLD.
  destruct (N.ltb_spec 640 (number_of_digits py t)),
    (N.ltb_spec 0 (max_str_digits py)),
    (N.ltb_spec (max_str_digits py) (number_of_digits py t));
    simpl; split; try done; try lia.
Qed.

(** [int] reads a text exactly when it is a literal with no more digits
    than the interpreter converts. *)
Lemma int_is_inr (py : interpreter) (t : text) :
  (∃ z, int py t = inr z) ↔ text_integer_literal py t ∧ digits_allowed py t.
Proof.
  unfold int.
  rewrite <- integer_literal_ascii_image, <- parse_int_integer_literal.
  rewrite <- exceeds_max_str_digits_false, count_digits_ascii_image.
  destruct (parse_int (ascii_image py t)) as [z|].
  - destruct (exceeds_max_str_digits py (number_of_digits py t)).
    + split; [by intros [??]|by intros [_ ?]].
    + split; [done|]. intros _. by exists z.
  - split; [by intros [??]|]. by intros [[??] _].
Qed.

(** C8: [isinteger] returns true on a text exactly when the text is a
    base-10 integer literal that the interpreter converts, and false on
    every other text; it is true on "3" and false on "3.0" and on "abc"; on
    an argument that is no text, such as the integer 3, the assertion on
    its type fails. *)
Theorem isinteger_integer_literal (py : interpreter) :
  (∀ t, isinteger py (Py_str t) = inr true
        ↔ text_integer_literal py t ∧ digits_allowed py t) ∧
  (∀ t, isinteger py (Py_str t) = inr false
        ↔ ¬ (text_integer_literal py t ∧ digits_allowed py t)) ∧
  isinteger py (Py_str (text_of "3")) = inr true ∧
  isinteger py (Py_str (text_of "3.0")) = inr false ∧
  isinteger py (Py_str (text_of "abc")) = inr false ∧
  isinteger py (Py_int 3) = inl AssertionError ∧
  (∀ x, (∀ t, x ≠ Py_str t) → isinteger py x = inl AssertionError).
Proof.
  assert (∀ t, isinteger py (Py_str t) = inr true
               ↔ text_integer_literal py t ∧ digits_allowed py t) as Htrue.
  { intros t. rewrite <- int_is_inr. unfold isinteger.
    destruct (int py t) as [e|z].
    - split; [done|]. by intros [??].
    - split; [|done]. intros _. by exists z. }
  split; [exact Htrue|]. split; [|split; [|split; [|split; [|split]]]].
  - intros t. rewrite <- Htrue. unfold isinteger.
    destruct (int py t); split; done.
  - done.
  - done.
  - done.
  - done.
  - intros x Hx. destruct x as [t| | |]; try done. by destruct (Hx t).
Qed.

(** Beyond ASCII and beyond the bound: with the example interpreter, [int]
    reads the Arabic-Indic digit three, and a digit after a no-break space or
    after a next-line character, as 3; [isinteger] is false of a text of
    4301 digits and true of one of 4300. *)
Lemma isinteger_beyond_ascii :
  isinteger example_interpreter (Py_str [0x663%N]) = inr true ∧
  int example_interpreter [0x663%N] = inr 3 ∧
  int example_interpreter [0xA0%N; 51%N] = inr 3 ∧
  int example_interpreter [0x85%N; 51%N] = inr 3 ∧
  text_integer_literal example_interpreter [0xA0%N; 51%N] ∧
  isinteger example_interpreter (Py_str (replicate 4301 49%N)) = inr false ∧
  isinteger example_interpreter (Py_str (replicate 4300 49%N)) = inr true.
Proof.
  repeat split; try by vm_compute.
  exists [0xA0%N], [51%N], []. repeat split; try done.
  - by repeat constructor.
  - apply tsd_plain. by constructor.
  - constructor.
Qed.
(** * Further properties *)

(** ** [int] and [str] *)

Lemma digit_value_pretty_N_char (m : N) :
  (m < 10)%N → digit_value (pretty_N_char m) = Some (Z.of_N m).
Proof.
  intros Hm.
  assert (m = 0 ∨ m = 1 ∨ m = 2 ∨ m = 3 ∨ m = 4 ∨ m = 5 ∨ m = 6 ∨ m = 7
          ∨ m = 8 ∨ m = 9)%N as Hcases by lia.
  repeat (destruct Hcases as [->|Hcases]; [reflexivity|]). by subst.
Qed.

(** The scan reads the decimal digits of a positive number as that
    number. *)
Lemma scan_digits_pretty_N_go (x : N) :
  (0 < x)%N →
  ∀ s prev, ∃ c d,
    digit_value c = Some d ∧
    digit_value (peek (pretty_N_go x s)) ≠ None ∧
    scan_digits prev 0 (pretty_N_go x s) = scan_digits c (Z.of_N x) s.
Proof.
  induction (N.lt_wf_0 x) as [x _ IH]. intros Hx s prev.
  rewrite pretty_N_go_step by done.
  pose proof (digit_value_pretty_N_char (x `mod` 10)
                (N.mod_lt x 10 ltac:(done))) as Hd.
  destruct (decide (x `div` 10 = 0)%N) as [Hq|Hq].
  - rewrite Hq, pretty_N_go_0. simpl. rewrite Hd.
    eexists _, _. split; [exact Hd|]. split; [done|].
    f_equal. rewrite (N.div_mod x 10) at 2 by done. lia.
  - destruct (IH (x `div` 10)%N) with
      (s := String (pretty_N_char (x `mod` 10)) s) (prev := prev)
      as (c & d & Hc & Hpeek & Hscan).
    { apply N.div_lt; lia. }
    { by apply N.neq_0_lt_0. }
    rewrite Hscan. simpl. rewrite Hd.
    eexists _, _. split; [exact Hd|]. split; [done|].
    f_equal. rewrite (N.div_mod x 10) at 3 by done. lia.
Qed.

Lemma parse_unsigned_pretty_N_go (x : N) :
  (0 < x)%N →
  parse_unsigned (pretty_N_go x "") = Some (Z.of_N x) ∧
  digit_value (peek (pretty_N_go x "")) ≠ None.
Proof.
  intros Hx.
  destruct (scan_digits_pretty_N_go x Hx "" "000"%char)
    as (c & d & Hc & Hpeek & Hscan).
  split; [|done]. unfold parse_unsigned.
  destruct (digit_value (peek (pretty_N_go x ""))) as [v|] eqn:Hv; [|done].
  rewrite (digit_not_underscore _ _ Hv), Hscan. simpl.
  rewrite (digit_not_underscore _ _ Hc).
  destruct (pretty_N_go x "") as [|c' s']; [done|]. done.
Qed.

(** The parser reads the decimal digits of an integer as that integer. *)
Lemma parse_int_pretty (i : Z) : parse_int (pretty i) = Some i.
Proof.
  assert (∀ p, parse_int (pretty (N.pos p)) = Some (Z.pos p) ∧
               parse_unsigned (pretty (N.pos p)) = Some (Z.pos p)) as Hpos.
  { intros p. unfold pretty, pretty_N. rewrite decide_False by done.
    destruct (parse_unsigned_pretty_N_go (N.pos p)) as [Hparse Hpeek]; [done|].
    split; [|done]. unfold parse_int.
    destruct (digit_value (peek (pretty_N_go (N.pos p) ""))) as [v|] eqn:Hv;
      [|done].
    rewrite skip_space_stop by (by eapply digit_not_space).
    by destruct (digit_not_sign _ _ Hv) as [-> ->]. }
  destruct i as [|p|p].
  - done.
  - change (pretty (Z.pos p)) with (pretty (N.pos p)).
    by destruct (Hpos p) as [-> _].
  - change (pretty (Z.neg p)) with ("-" +:+ pretty (N.pos p)).
    unfold parse_int. simpl. by destruct (Hpos p) as [_ ->].
Qed.

(** The parser reads the text of a string of ASCII characters as it is. *)
Lemma ascii_image_text_of (py : interpreter) (s : string) :
  is_ascii s → ascii_image py (text_of s) = s.
Proof.
  unfold is_ascii, text_of. induction s as [|c s IH]; [done|].
  cbn [list_ascii_of_string]. rewrite Forall_cons, fmap_cons.
  intros [Hc Hs]. rewrite ascii_image_cons, IH by done. f_equal.
  unfold to_ascii. rewrite (proj2 (N.ltb_lt _ _)) by done.
  apply ascii_N_embedding.
Qed.

Lemma is_ascii_digit (c : ascii) (d : Z) :
  digit_value c = Some d → (N_of_ascii c < 128)%N.
Proof. intros Hd%digit_value_range. unfold nat_of_ascii in Hd. lia. Qed.

Lemma is_ascii_pretty_N_go (x : N) (s : string) :
  is_ascii s → is_ascii (pretty_N_go x s).
Proof.
  revert s. induction (N.lt_wf_0 x) as [x _ IH]. intros s Hs.
  destruct (decide (x = 0)%N) as [->|Hx].
  - by rewrite pretty_N_go_0.
  - rewrite pretty_N_go_step by lia. apply IH.
    + apply N.div_lt; lia.
    + apply Forall_cons. split; [|done].
      apply (is_ascii_digit _ (Z.of_N (x `mod` 10))).
      apply digit_value_pretty_N_char. by apply N.mod_lt.
Qed.

Lemma is_ascii_pretty (i : Z) : is_ascii (pretty i).
Proof.
  assert (∀ p, is_ascii (pretty (N.pos p))) as Hpos.
  { intros p. unfold pretty, pretty_N. rewrite decide_False by done.
    apply is_ascii_pretty_N_go. constructor. }
  destruct i as [|p|p].
  - repeat constructor.
  - apply Hpos.
  - change (pretty (Z.neg p)) with ("-" +:+ pretty (N.pos p)).
    apply Forall_cons. split; [by vm_compute|apply Hpos].
Qed.

Lemma int_of_str (py : interpreter) (i : Z) :
  digits_allowed py (str i) → int py (str i) = inr i.
Proof.
  intros Hdigits. unfold int, str.
  rewrite ascii_image_text_of, parse_int_pretty by apply is_ascii_pretty.
  rewrite <- (ascii_image_text_of py (pretty i)) by apply is_ascii_pretty.
  rewrite count_digits_ascii_image.
  apply exceeds_max_str_digits_false in Hdigits. unfold str in Hdigits.
  by rewrite Hdigits.
Qed.

(** The text that [str] makes of an integer is read back by [int] as that
    integer, so [isinteger] is true of it, when it has no more digits than
    the interpreter converts: an index typed as the prompts show it is
    understood. *)
Theorem int_str_round_trip (py : interpreter) (i : Z) :
  digits_allowed py (str i) →
  int py (str i) = inr i ∧ isinteger py (Py_str (str i)) = inr true.
Proof.
  intros Hi%int_of_str. split; [done|].
  unfold isinteger. by rewrite Hi.
Qed.

Lemma int_str_round_trip_witness :
  int example_interpreter (str (-120)) = inr (-120) ∧
  isinteger example_interpreter (Py_str (str (-120))) = inr true.
Proof.
  apply (int_str_round_trip example_interpreter (-120)).
  left. by vm_compute.
Defined.

Lemma skip_space_app_space (s after : string) :
  all_space after →
  skip_space (s ++ after) =
    match skip_space s with
    | EmptyString => EmptyString
    | String c s' => String c (s' ++ after)
    end.
Proof.
  intros Hafter. induction s as [|c s IH]; simpl.
  - by rewrite skip_space_all.
  - by destruct (Py_ISSPACE c).
Qed.

Lemma scan_digits_app_space (s after : string) :
  all_space after →
  ∀ prev acc,
    scan_digits prev acc (s ++ after) =
      match scan_digits prev acc s with
      | Some (prev', z, rest) => Some (prev', z, (rest ++ after)%string)
      | None => None
      end.
Proof.
  intros Hafter. destruct (all_space_peek _ Hafter) as [Hd Hu].
  induction s as [|c s IH]; intros prev acc; simpl.
  - by rewrite scan_digits_stop.
  - destruct (digit_value c); [apply IH|].
    destruct (is_underscore c); [|done].
    destruct (is_underscore prev); [done|apply IH].
Qed.

Lemma parse_unsigned_app_space (s after : string) :
  all_space after → parse_unsigned (s ++ after) = parse_unsigned s.
Proof.
  intros Hafter. destruct (all_space_peek _ Hafter) as [Hd Hu].
  unfold parse_unsigned. destruct s as [|c s].
  - simpl. rewrite Hu, scan_digits_stop by done. simpl.
    by rewrite Nat.eqb_refl.
  - rewrite scan_digits_app_space by done.
    change (peek (String c s ++ after)) with (peek (String c s)).
    destruct (is_underscore (peek (String c s))); [done|].
    destruct (scan_digits "000" 0 (String c s)) as [[[prev' z] rest]|];
      [|done].
    destruct (is_underscore prev'); [done|].
    rewrite !length_append.
    destruct (Nat.eqb_spec (String.length rest) (String.length (String c s)))
      as [Hlen|Hlen].
    + by rewrite Hlen, Nat.eqb_refl.
    + rewrite (proj2 (Nat.eqb_neq _ _)) by lia.
      rewrite skip_space_app_space by done. by destruct (skip_space rest).
Qed.

Lemma parse_int_app_space (s after : string) :
  all_space after → parse_int (s ++ after) = parse_int s.
Proof.
  intros Hafter. unfold parse_int. rewrite skip_space_app_space by done.
  destruct (skip_space s) as [|c s'].
  - done.
  - change (peek (String c (s' ++ after))) with c.
    change (peek (String c s')) with c.
    change (advance (String c (s' ++ after))) with (s' ++ after)%string.
    change (advance (String c s')) with s'.
    rewrite (parse_unsigned_app_space s') by done.
    change (String c (s' ++ after)) with (String c s' ++ after)%string.
    by rewrite (parse_unsigned_app_space (String c s')) by done.
Qed.

Lemma parse_int_surrounding_space (before s after : string) :
  all_space before → all_space after →
  parse_int (before ++ s ++ after) = parse_int s.
Proof.
  intros Hbefore Hafter.
  unfold parse_int at 1. rewrite skip_space_app by done.
  fold (parse_int (s ++ after)). by apply parse_int_app_space.
Qed.

(** Whitespace has no digits. *)
Lemma number_of_digits_space (py : interpreter) (t : text) :
  text_space py t → number_of_digits py t = 0%N.
Proof.
  unfold number_of_digits. induction 1 as [|ch t Hch _ IH]; [done|].
  rewrite filter_cons_False; [done|].
  intros Hd%digit_value_to_ascii. rewrite <- Py_ISSPACE_to_ascii in Hch.
  destruct Hd as [d Hd]. by rewrite (digit_not_space _ _ Hd) in Hch.
Qed.

Lemma number_of_digits_app (py : interpreter) (t1 t2 : text) :
  number_of_digits py (t1 ++ t2)
  = (number_of_digits py t1 + number_of_digits py t2)%N.
Proof. unfold number_of_digits. rewrite filter_app, length_app. lia. Qed.

(** Whitespace around a text changes neither whether [int] reads it nor the
    integer read, so [isinteger] answers the same with and without it. *)
Theorem int_ignores_surrounding_space (py : interpreter)
    (before t after : text) :
  text_space py before → text_space py after →
  int py (before ++ t ++ after) = int py t ∧
  isinteger py (Py_str (before ++ t ++ after)) = isinteger py (Py_str t).
Proof.
  intros Hbefore Hafter.
  assert (int py (before ++ t ++ after) = int py t) as Hint.
  { unfold int. rewrite !count_digits_ascii_image, !ascii_image_app.
    rewrite parse_int_surrounding_space by (by apply all_space_ascii_image).
    rewrite !number_of_digits_app.
    rewrite (number_of_digits_space py before),
      (number_of_digits_space py after) by done.
    by rewrite N.add_0_l, N.add_0_r. }
  unfold isinteger. by rewrite Hint.
Qed.

Lemma int_ignores_surrounding_space_witness :
  int example_interpreter ([32; 160] ++ text_of "-4_2" ++ [10])%N
  = int example_interpreter (text_of "-4_2") ∧
  isinteger example_interpreter
    (Py_str ([32; 160] ++ text_of "-4_2" ++ [10])%N)
  = isinteger example_interpreter (Py_str (text_of "-4_2")).
Proof.
  apply (int_ignores_surrounding_space example_interpreter
           [32; 160]%N (text_of "-4_2") [10]%N).
  - by repeat constructor.
  - by repeat constructor.
Defined.

(** ** The methods [visualize] *)

Ltac run_console :=
  unfold mbind, W_bind, IO_bind, mret, W_ret, IO_ret, writing, throw, print,
    try, read, int_of, Trajectory_visualize, TrajectorySet_getitem; simpl.

Lemma read_attribute {A} (h : heap) (a : object → option A) (l : loc) (v : A) :
  attribute h l a = Some v → read h a l = (inr v, []).
Proof. unfold attribute, read. by intros ->. Qed.

Lemma play_one (h : heap) (q : loc) (l : list basics.Trajectory) (j : nat)
    (t : basics.Trajectory) :
  attribute h q attr._slate = Some {| basics.trajectories := l |} →
  l !! j = Some t →
  (print (text_of "Playing trajectory #" ++ str (Z.of_nat j));;
   slate ← read h attr._slate q;
   t' ← TrajectorySet_getitem slate (Z.of_nat j);
   Trajectory_visualize t')
  = (inr (), [Print (text_of "Playing trajectory #" ++ str (Z.of_nat j)); Play t]).
Proof.
  intros Hslate Hj. rewrite (read_attribute _ _ _ _ Hslate). run_console.
  rewrite !(proj2 (Z.ltb_ge (Z.of_nat j) 0)) by lia.
  by rewrite Nat2Z.id, Hj.
Qed.

Lemma play_from (h : heap) (q : loc) (l : list basics.Trajectory) :
  attribute h q attr._slate = Some {| basics.trajectories := l |} →
  ∀ rest j,
    drop j l = rest →
    for_range (Z.of_nat <$> seq j (length rest)) (λ i,
      print (text_of "Playing trajectory #" ++ str i);;
      slate ← read h attr._slate q;
      t ← TrajectorySet_getitem slate i;
      Trajectory_visualize t)
    = (inr (),
       concat (imap (λ i t,
                 [Print (text_of "Playing trajectory #" ++ str (Z.of_nat (j + i)));
                  Play t]) rest)).
Proof.
  intros Hslate rest. induction rest as [|t rest IH]; intros j Hdrop.
  - done.
  - assert (l !! j = Some t) as Hj.
    { rewrite <- (Nat.add_0_r j), <- lookup_drop, Hdrop. done. }
    assert (drop (S j) l = rest) as Hdrop'.
    { rewrite (drop_S _ _ _ Hj) in Hdrop. by simplify_eq. }
    change (length (t :: rest)) with (S (length rest)).
    rewrite <- cons_seq, fmap_cons.
    match goal with
    | |- for_range (?i :: ?js) ?b = _ =>
        change (for_range (i :: js) b) with (b i;; for_range js b)
    end.
    cbv beta. rewrite (play_one h q l j t Hslate Hj), (IH (S j) Hdrop').
    unfold mbind, W_bind. simpl. rewrite Nat.add_0_r. do 4 f_equal.
    apply imap_ext. intros i t' _. simpl. by rewrite Nat.add_succ_r.
Qed.

(** On a query that holds a slate, the first loop of [visualize] announces
    and plays every trajectory. *)
Lemma play_slate_spec (h : heap) (q : loc) (l : list basics.Trajectory) :
  slate_state h q l → play_slate h q = (inr (), playback l).
Proof.
  intros [Hslate HK]. unfold play_slate.
  rewrite (read_attribute _ _ _ _ HK). unfold mbind at 1, W_bind at 1.
  rewrite np_arange_of_nat.
  rewrite (play_from h q l Hslate l 0%nat) by done. done.
Qed.

(** The loop skips the lines that its body rejects without printing, with
    one prompt for each, and ends on the first line that the body keeps. *)
Lemma while_selection_first_kept (p : text) (keep : text → W bool)
    (rejected : list text) (line : text) (rest : list text) :
  Forall (λ s, keep s = (inr false, [])) rejected →
  keep line = (inr true, []) →
  while_selection_is_None (inr p, []) keep (rejected ++ line :: rest)
  = ((inr line, replicate (S (length rejected)) (Prompt p)), rest).
Proof.
  intros Hrej Hline. induction Hrej as [|s rejected Hs _ IH]; simpl.
  - by rewrite Hline.
  - rewrite Hs. simpl in IH. by rewrite IH.
Qed.

Lemma while_selection_end_of_input (p : text) (keep : text → W bool)
    (stdin : list text) :
  Forall (λ s, keep s = (inr false, [])) stdin →
  while_selection_is_None (inr p, []) keep stdin
  = ((inl EOFError, replicate (S (length stdin)) (Prompt p)), []).
Proof.
  intros Hrej. induction Hrej as [|s stdin Hs _ IH]; simpl.
  - done.
  - rewrite Hs. simpl in IH. by rewrite IH.
Qed.

(** The selection that the loop returns is one that its body keeps, and it
    is a line of the input. *)
Lemma while_selection_returns (prompt : W text) (keep : text → W bool)
    (stdin rest : list text) (selection : text) (out : list event) :
  while_selection_is_None prompt keep stdin = ((inr selection, out), rest) →
  (∃ out', keep selection = (inr true, out')) ∧
  ∃ skipped, stdin = skipped ++ selection :: rest.
Proof.
  revert out. induction stdin as [|s stdin IH]; intros out; simpl;
    destruct prompt as [[e|p] out0]; try done.
  destruct (keep s) as [[e|[|]] out'] eqn:Hs; try done.
  - intros [= <- _ <-]. split; [by eexists|]. by exists [].
  - destruct (while_selection_is_None (inr p, out0) keep stdin)
      as [[r out''] stdin''] eqn:Hloop.
    intros [= -> _ ->]. destruct (IH _ eq_refl) as [Hkeep [skipped ->]].
    split; [done|]. by exists (s :: skipped).
Qed.

Lemma keep_if_in_response_set_spec (py : interpreter)
    (h : heap) (q : loc) (rs : ndarray) (selection : text) :
  attribute h q attr.response_set = Some rs →
  keep_if_in_response_set py h q selection
  = (inr match int py selection with
         | inr v => array_contains_int rs v
         | inl _ => false
         end, []).
Proof.
  intros Hrs. unfold keep_if_in_response_set, isinteger.
  rewrite (read_attribute _ _ _ _ Hrs). run_console.
  by destruct (int py selection).
Qed.

(** What the body tells of a selection that it keeps. *)
Lemma keep_if_in_response_set_true (py : interpreter)
    (h : heap) (q : loc) (selection : text) (out : list event) :
  keep_if_in_response_set py h q selection = (inr true, out) →
  ∃ v rs,
    int py selection = inr v ∧
    attribute h q attr.response_set = Some rs ∧
    array_contains_int rs v = true.
Proof.
  destruct (attribute h q attr.response_set) as [rs|] eqn:Hrs.
  - rewrite (keep_if_in_response_set_spec _ _ _ _ _ Hrs).
    destruct (int py selection) as [e|v]; [done|].
    intros [= Hin _]. by exists v, rs.
  - unfold attribute in Hrs.
    unfold keep_if_in_response_set, isinteger, read. rewrite Hrs.
    run_console. by destruct (int py selection).
Qed.

(** [PreferenceQuery.visualize] plays the slate, then prompts until a line
    is an integer literal with a value in [0, K): it returns that value and
    leaves the lines after it.  The lines before it cost one prompt each. *)
Theorem PreferenceQuery_visualize_first_index (py : interpreter)
    (h : heap) (q : loc) (l : list basics.Trajectory) (rejected : list text)
    (line : text) (rest : list text) (r : Z) :
  let k := Z.of_nat (length l) in
  slate_state h q l →
  attribute h q attr.response_set = Some (Array1 (np_arange k)) →
  Forall (rejected_index py k) rejected →
  int py line = inr r → 0 ≤ r < k →
  PreferenceQuery_visualize py h q (rejected ++ line :: rest)
  = ((inr r,
      playback l
      ++ replicate (S (length rejected)) (Prompt (PreferenceQuery_prompt k))),
     rest).
Proof.
  intros k Hslate Hrs Hrej Hline Hr. unfold PreferenceQuery_visualize.
  rewrite (play_slate_spec _ _ _ Hslate).
  rewrite (read_attribute _ _ _ _ (proj2 Hslate)).
  unfold mbind at 3, W_bind, mret at 1, W_ret. fold k.
  fold (PreferenceQuery_prompt k).
  unfold mbind, IO_bind, writing. cbn [app].
  rewrite (while_selection_first_kept (PreferenceQuery_prompt k)
             (keep_if_in_response_set py h q) rejected line rest).
  - unfold int_of, try. rewrite Hline. simpl. by rewrite !app_nil_r.
  - eapply Forall_impl; [exact Hrej|]. intros s Hs.
    rewrite (keep_if_in_response_set_spec _ _ _ _ _ Hrs).
    destruct (int py s) as [e|v] eqn:Hv; [done|].
    do 2 f_equal. apply not_true_is_false.
    rewrite array_contains_int_arange. by apply Hs.
  - rewrite (keep_if_in_response_set_spec _ _ _ _ _ Hrs), Hline.
    do 2 f_equal. by apply array_contains_int_arange.
Qed.

Lemma PreferenceQuery_visualize_first_index_witness :
  let h := (PreferenceQuery.new
              (basics.Slate_list [example_trajectory; example_trajectory;
                                  example_trajectory]) []).2 in
  PreferenceQuery_visualize example_interpreter h 0%nat
    [text_of "abc"; text_of "3.0"; text_of "5"; [160; 0x662]%N; text_of "1"]
  = ((inr 2,
      playback [example_trajectory; example_trajectory; example_trajectory]
      ++ replicate 4 (Prompt (PreferenceQuery_prompt 3))),
     [text_of "1"]).
Proof.
  intros h.
  apply (PreferenceQuery_visualize_first_index example_interpreter h 0%nat
           [example_trajectory; example_trajectory; example_trajectory]
           [text_of "abc"; text_of "3.0"; text_of "5"] [160; 0x662]%N
           [text_of "1"] 2).
  - by split.
  - done.
  - repeat first [apply Forall_nil_2 | apply Forall_cons_2];
      intros v Hv; vm_compute in Hv; simplify_eq; simpl; lia.
  - done.
  - simpl. lia.
Defined.

(** When no line of the input is an integer literal with a value in
    [0, K), [PreferenceQuery.visualize] prompts once for every line and once
    more, and ends with [EOFError]. *)
Theorem PreferenceQuery_visualize_end_of_input (py : interpreter)
    (h : heap) (q : loc) (l : list basics.Trajectory) (stdin : list text) :
  let k := Z.of_nat (length l) in
  slate_state h q l →
  attribute h q attr.response_set = Some (Array1 (np_arange k)) →
  Forall (rejected_index py k) stdin →
  PreferenceQuery_visualize py h q stdin
  = ((inl EOFError,
      playback l
      ++ replicate (S (length stdin)) (Prompt (PreferenceQuery_prompt k))),
     []).
Proof.
  intros k Hslate Hrs Hrej. unfold PreferenceQuery_visualize.
  rewrite (play_slate_spec _ _ _ Hslate).
  rewrite (read_attribute _ _ _ _ (proj2 Hslate)).
  unfold mbind at 3, W_bind, mret at 1, W_ret. fold k.
  fold (PreferenceQuery_prompt k).
  unfold mbind, IO_bind, writing. cbn [app].
  rewrite (while_selection_end_of_input (PreferenceQuery_prompt k)
             (keep_if_in_response_set py h q) stdin); [done|].
  eapply Forall_impl; [exact Hrej|]. intros s Hs.
  rewrite (keep_if_in_response_set_spec _ _ _ _ _ Hrs).
  destruct (int py s) as [e|v] eqn:Hv; [done|].
  do 2 f_equal. apply not_true_is_false.
  rewrite array_contains_int_arange. by apply Hs.
Qed.

Lemma PreferenceQuery_visualize_end_of_input_witness :
  let h := (PreferenceQuery.new
              (basics.Slate_list [example_trajectory; example_trajectory])
              []).2 in
  PreferenceQuery_visualize example_interpreter h 0%nat
    [text_of "2"; text_of "one"]
  = ((inl EOFError,
      playback [example_trajectory; example_trajectory]
      ++ replicate 3 (Prompt (PreferenceQuery_prompt 2))),
     []).
Proof.
  intros h.
  apply (PreferenceQuery_visualize_end_of_input example_interpreter h 0%nat
           [example_trajectory; example_trajectory]
           [text_of "2"; text_of "one"]).
  - by split.
  - done.
  - repeat first [apply Forall_nil_2 | apply Forall_cons_2];
      intros v Hv; vm_compute in Hv; simplify_eq; simpl; lia.
Defined.

(** What the loop over the response set returns is the value of a line of
    the input, and it is in the response set of the query. *)
Lemma selection_in_response_set (py : interpreter)
    (h : heap) (q : loc) (prompt : W text) (stdin rest : list text) (r : Z)
    (out : list event) :
  (selection ← while_selection_is_None prompt (keep_if_in_response_set py h q);
   writing (int_of py selection)) stdin = ((inr r, out), rest) →
  ∃ rs skipped line,
    attribute h q attr.response_set = Some rs ∧
    array_contains_int rs r = true ∧
    stdin = skipped ++ line :: rest ∧
    int py line = inr r.
Proof.
  unfold mbind, IO_bind.
  destruct (while_selection_is_None prompt (keep_if_in_response_set py h q) stdin)
    as [[[e|selection] out1] stdin1] eqn:Hloop; [done|].
  apply while_selection_returns in Hloop as [[out' Hkeep] [skipped ->]].
  apply keep_if_in_response_set_true in Hkeep as (v & rs & Hv & Hrs & Hin).
  unfold writing, int_of, try. rewrite Hv. simpl. intros [= <- _ <-].
  by exists rs, skipped, selection.
Qed.

Lemma after_playing {A} (h : heap) (q : loc) (body : IO A)
    (stdin rest : list text) (r : A) (out : list event) :
  (writing (play_slate h q);; body) stdin = ((inr r, out), rest) →
  ∃ out', body stdin = ((inr r, out'), rest).
Proof.
  unfold mbind at 1, IO_bind, writing.
  destruct (play_slate h q) as [[e|[]] out0]; [done|].
  destruct (body stdin) as [[r' out'] stdin'].
  intros [= -> _ ->]. by eexists.
Qed.

(** Whatever [PreferenceQuery.visualize] returns is a response that
    [Preference] accepts for the same query. *)
Theorem PreferenceQuery_visualize_accepted (py : interpreter)
    (h : heap) (q : loc) (stdin rest : list text) (r : Z) (out : list event) :
  PreferenceQuery_visualize py h q stdin = ((inr r, out), rest) →
  ∃ p h',
    Preference.new q (R_int r) h = (inr p, h') ∧
    attribute h' p attr.response = Some (R_int r) ∧
    attribute h' p attr.query = Some q.
Proof.
  unfold PreferenceQuery_visualize.
  intros [out' Hloop]%after_playing.
  apply selection_in_response_set in Hloop
    as (rs & skipped & line & Hrs & Hin & _ & _).
  rewrite Preference_new_spec. unfold response_new_outcome.
  rewrite Hrs. cbn [array_contains]. rewrite Hin. eexists _, _. split; [done|].
  by rewrite !attribute_fresh.
Qed.

Lemma PreferenceQuery_visualize_accepted_witness :
  let h := (PreferenceQuery.new
              (basics.Slate_list [example_trajectory; example_trajectory])
              []).2 in
  ∃ p h',
    Preference.new 0%nat (R_int 1) h = (inr p, h') ∧
    attribute h' p attr.response = Some (R_int 1) ∧
    attribute h' p attr.query = Some 0%nat.
Proof.
  intros h.
  apply (PreferenceQuery_visualize_accepted example_interpreter h 0%nat
           [text_of "7"; text_of "+1"; text_of "0"] [text_of "0"] 1
           (playback [example_trajectory; example_trajectory]
            ++ replicate 2 (Prompt (PreferenceQuery_prompt 2)))).
  reflexivity.
Defined.

(** [WeakComparisonQuery.visualize] returns -1, 0 or 1, the value of a line
    of the input, and leaves the lines after that line. *)
Theorem WeakComparisonQuery_visualize_returns (py : interpreter)
    (h : heap) (q : loc) (stdin rest : list text) (r : Z) (out : list event) :
  attribute h q attr.response_set = Some (Array1 [-1; 0; 1]) →
  WeakComparisonQuery_visualize py h q stdin = ((inr r, out), rest) →
  (r = -1 ∨ r = 0 ∨ r = 1) ∧
  ∃ skipped line, stdin = skipped ++ line :: rest ∧ int py line = inr r.
Proof.
  intros Hrs. unfold WeakComparisonQuery_visualize.
  intros [out' Hloop]%after_playing.
  apply selection_in_response_set in Hloop
    as (rs & skipped & line & Hrs' & Hin & Hstdin & Hline).
  rewrite Hrs in Hrs'. injection Hrs' as <-.
  apply array_contains_int_1 in Hin. split; [|by exists skipped, line].
  rewrite !elem_of_cons in Hin. destruct Hin as [?|[?|[?|Hnil]]]; auto.
  by apply elem_of_nil in Hnil.
Qed.

Lemma WeakComparisonQuery_visualize_returns_witness :
  let h := (WeakComparisonQuery.new
              (basics.Slate_list [example_trajectory; example_trajectory])
              []).2 in
  (-1 = -1 ∨ -1 = 0 ∨ -1 = 1) ∧
  ∃ skipped line,
    [text_of "2"; text_of "equal"; text_of "-1"; text_of "0"]
    = skipped ++ line :: [text_of "0"] ∧
    int example_interpreter line = inr (-1).
Proof.
  intros h.
  apply (WeakComparisonQuery_visualize_returns example_interpreter h 0%nat
           [text_of "2"; text_of "equal"; text_of "-1"; text_of "0"]
           [text_of "0"] (-1)
           (playback [example_trajectory; example_trajectory]
            ++ replicate 3 (Prompt WeakComparisonQuery_prompt))).
  - reflexivity.
  - reflexivity.
Defined.

Lemma keep_if_new_index_true (py : interpreter)
    (h : heap) (q : loc) (response : list Z) (selection : text)
    (out : list event) :
  keep_if_new_index py h q response selection = (inr true, out) →
  ∃ v k,
    int py selection = inr v ∧ attribute h q attr.K = Some k ∧
    0 ≤ v < k ∧ v ∉ response.
Proof.
  unfold keep_if_new_index, isinteger, int_of, try, read, attribute,
    list_contains.
  destruct (int py selection) as [e|v]; destruct (h !! q ≫= attr.K) as [k|];
    unfold mbind, W_bind, mret, W_ret, throw, print; cbn [negb app];
    try done.
  - destruct (Z.ltb_spec v 0); [done|].
    destruct (Z.leb_spec k v); [done|].
    case_bool_decide; [done|].
    intros _. exists v, k. repeat split; try done; lia.
  - by destruct (Z.ltb_spec v 0).
Qed.

(** The outer loop adds a selection to the response in each round: an index
    below K that the response does not hold yet. *)
Lemma ask_ranks_returns (py : interpreter)
    (h : heap) (q : loc) (k : Z) (n : nat) :
  attribute h q attr.K = Some k →
  ∀ i response stdin resp out rest,
    ask_ranks py h q n i response stdin = ((inr resp, out), rest) →
    NoDup response → Forall (λ x, 0 ≤ x < k) response →
    length resp = (length response + n)%nat ∧
    NoDup resp ∧ Forall (λ x, 0 ≤ x < k) resp.
Proof.
  intros HK. induction n as [|n IH]; intros i response stdin resp out rest.
  - intros [= <- _ _] ??. by rewrite Nat.add_0_r.
  - cbn [ask_ranks]. unfold mbind at 1, IO_bind at 1.
    destruct (while_selection_is_None _ _ stdin)
      as [[[e|selection] out1] stdin1] eqn:Hloop; [done|].
    apply while_selection_returns in Hloop as [[out' Hkeep] _].
    apply keep_if_new_index_true in Hkeep as (v & k' & Hv & HK' & Hrange & Hnew).
    rewrite HK in HK'. injection HK' as <-.
    unfold mbind at 1, IO_bind at 1, writing, int_of, try. rewrite Hv.
    cbn [mret W_ret].
    destruct (ask_ranks py h q n (i + 1) (response ++ [v]) stdin1)
      as [[r out2] stdin2] eqn:Hrest.
    intros [= -> _ _] Hnodup Hall.
    apply IH in Hrest as (Hlen & ? & ?).
    + rewrite length_app in Hlen. simpl in Hlen. split; [lia|done].
    + apply NoDup_app. repeat split; [done| |apply NoDup_singleton].
      intros x Hx ->%list_elem_of_singleton. done.
    + apply Forall_app. split; [done|]. by apply Forall_singleton.
Qed.

Lemma elem_of_np_unique (x : Z) (a : list Z) : x ∈ np_unique a ↔ x ∈ a.
Proof.
  unfold np_unique. by rewrite merge_sort_Permutation, elem_of_remove_dups.
Qed.

Lemma elem_of_permutation_rows (k x : Z) :
  x ∈ concat (itertools_permutations (np_arange k)) → 0 ≤ x < k.
Proof.
  intros (row & Hx & Hrow)%elem_of_concat.
  apply elem_of_permutations_r in Hrow; [|done].
  rewrite Hrow in Hx. by apply elem_of_np_arange.
Qed.

(** A sequence of K distinct indices below K is a permutation of
    0..K-1. *)
Lemma distinct_indices_Permutation (k : Z) (l : list Z) :
  NoDup l → Forall (λ x, 0 ≤ x < k) l → length l = Z.to_nat k →
  l ≡ₚ np_arange k.
Proof.
  intros Hnodup Hall Hlen. apply submseteq_length_Permutation.
  - apply NoDup_submseteq; [done|]. intros x Hx.
    apply elem_of_np_arange. by eapply Forall_forall in Hall.
  - unfold np_arange. rewrite length_fmap, length_seq. lia.
Qed.

Lemma visualize_permutation_accepted (py : interpreter)
    (h : heap) (q : loc) (k : Z) (stdin rest : list text) (resp : list Z)
    (out : list event) :
  attribute h q attr.K = Some k →
  attribute h q attr.response_set
  = Some (Array2 (itertools_permutations (np_arange k))) →
  FullRankingQuery_visualize py h q stdin = ((inr resp, out), rest) →
  resp ≡ₚ np_arange k ∧
  ∃ p h',
    FullRanking.new q resp h = (inr p, h') ∧
    attribute h' p attr.response = Some (R_list resp) ∧
    attribute h' p attr.query = Some q.
Proof.
  intros HK Hrs. unfold FullRankingQuery_visualize.
  intros [out' Hrun]%after_playing. revert Hrun.
  unfold mbind at 1, IO_bind at 1, writing at 1.
  rewrite (read_attribute _ _ _ _ HK).
  unfold mbind at 1, IO_bind at 1.
  destruct (ask_ranks py h q (Z.to_nat (k - 1)) 1 [] stdin)
    as [[[e|response] out1] stdin1] eqn:Hranks; [done|].
  apply (ask_ranks_returns py h q k _ HK) in Hranks
    as (Hlen & Hnodup & Hall); [|apply NoDup_nil_2|apply Forall_nil_2].
  unfold mbind at 1, IO_bind at 1, writing at 1.
  rewrite (read_attribute _ _ _ _ Hrs).
  unfold mbind at 1, IO_bind at 1, writing at 1.
  destruct (np_setdiff1d _ response) as [|m [|??]] eqn:Hdiff; try done.
  cbn. intros [= <- _ _].
  assert (m ∈ np_setdiff1d
                (Array2 (itertools_permutations (np_arange k))) response)
    as Hm by (rewrite Hdiff; left).
  unfold np_setdiff1d in Hm. apply list_elem_of_filter in Hm as [Hnew Hm].
  rewrite elem_of_np_unique in Hnew, Hm.
  apply elem_of_permutation_rows in Hm.
  assert (response ++ [m] ≡ₚ np_arange k) as Hperm.
  { apply distinct_indices_Permutation.
    - apply NoDup_app. repeat split; [done| |apply NoDup_singleton].
      intros x Hx ->%list_elem_of_singleton. done.
    - apply Forall_app. split; [done|]. by apply Forall_singleton.
    - rewrite length_app, Hlen. simpl. lia. }
  split; [done|].
  rewrite FullRanking_new_spec. unfold response_new_outcome. rewrite Hrs.
  rewrite array_contains_row.
  - eexists _, _. split; [done|]. by rewrite !attribute_fresh.
  - by apply elem_of_permutations_r.
  - by destruct response.
  - intros row Hrow%elem_of_permutations_r; [|done]. by rewrite Hrow, Hperm.
Qed.

(** What [FullRankingQuery.visualize] returns is a permutation of 0..K-1,
    and a response that [FullRanking] accepts for the same query. *)
Theorem FullRankingQuery_visualize_permutation (py : interpreter)
    (h : heap) (q : loc) (k : Z) (stdin rest : list text) (resp : list Z)
    (out : list event) :
  attribute h q attr.K = Some k →
  attribute h q attr.response_set
  = Some (Array2 (itertools_permutations (np_arange k))) →
  FullRankingQuery_visualize py h q stdin = ((inr resp, out), rest) →
  resp ≡ₚ np_arange k ∧
  ∃ p h',
    FullRanking.new q resp h = (inr p, h') ∧
    attribute h' p attr.response = Some (R_list resp) ∧
    attribute h' p attr.query = Some q.
Proof. apply visualize_permutation_accepted. Qed.

Lemma FullRankingQuery_visualize_permutation_witness :
  let h := (FullRankingQuery.new
              (basics.Slate_list [example_trajectory; example_trajectory;
                                  example_trajectory]) []).2 in
  [2; 0; 1] ≡ₚ np_arange 3 ∧
  ∃ p h',
    FullRanking.new 0%nat [2; 0; 1] h = (inr p, h') ∧
    attribute h' p attr.response = Some (R_list [2; 0; 1]) ∧
    attribute h' p attr.query = Some 0%nat.
Proof.
  intros h.
  apply (FullRankingQuery_visualize_permutation example_interpreter h 0%nat 3
           [text_of "2"; text_of "2"; text_of "x"; text_of "0"; text_of "7"]
           [text_of "7"] [2; 0; 1]
           (FullRankingQuery_visualize example_interpreter h 0%nat
              [text_of "2"; text_of "2"; text_of "x"; text_of "0"; text_of "7"]).1.2).
  - reflexivity.
  - reflexivity.
  - vm_compute. reflexivity.
Defined.

Lemma keep_if_new_index_str (py : interpreter) (h : heap) (q : loc)
    (k v : Z) (response : list Z) :
  attribute h q attr.K = Some k → 0 ≤ v < k → v ∉ response →
  digits_allowed py (str v) →
  keep_if_new_index py h q response (str v) = (inr true, []).
Proof.
  intros HK Hv Hnew Hdigits.
  unfold keep_if_new_index, isinteger, int_of.
  rewrite (int_of_str py) by done. rewrite (read_attribute _ _ _ _ HK).
  unfold try, mbind, W_bind, mret, W_ret. cbn [negb app].
  rewrite (proj2 (Z.ltb_ge _ _)), (proj2 (Z.leb_gt _ _)) by lia.
  unfold list_contains. by rewrite bool_decide_eq_false_2.
Qed.

(** Given the decimal texts of distinct indices below K that the response
    does not hold yet, the outer loop takes one in each round. *)
Lemma ask_ranks_str (py : interpreter) (h : heap) (q : loc) (k : Z)
    (rest : list text) :
  attribute h q attr.K = Some k →
  ∀ selections i response,
    NoDup (response ++ selections) →
    Forall (λ x, 0 ≤ x < k) selections →
    Forall (λ x, digits_allowed py (str x)) selections →
    ∃ out,
      ask_ranks py h q (length selections) i response
        ((str <$> selections) ++ rest)
      = ((inr (response ++ selections), out), rest).
Proof.
  intros HK selections.
  induction selections as [|v selections IH];
    intros i response Hnodup Hall Hdigits.
  - eexists. by rewrite app_nil_r.
  - apply Forall_cons in Hall as [Hv Hall].
    apply Forall_cons in Hdigits as [Hdv Hdigits].
    assert (v ∉ response) as Hnew.
    { apply NoDup_app in Hnodup as (_ & Hdisjoint & _).
      intros Hin. apply (Hdisjoint v Hin). left. }
    destruct (IH (i + 1) (response ++ [v])) as [out Hrest].
    { by rewrite <- app_assoc. }
    { done. }
    { done. }
    cbn [length ask_ranks fmap list_fmap app].
    rewrite (read_attribute _ _ _ _ HK).
    unfold mbind at 3, W_bind, mret at 1, W_ret.
    unfold mbind at 1, IO_bind at 1. cbn [while_selection_is_None app].
    rewrite (keep_if_new_index_str py h q k v) by done.
    unfold mbind at 1, IO_bind at 1, writing, int_of.
    rewrite (int_of_str py) by done.
    cbn [try mret W_ret].
    change (list_fmap Z text str selections) with (str <$> selections).
    rewrite Hrest.
    rewrite <- app_assoc. by eexists.
Qed.

Lemma NoDup_np_unique (a : list Z) : NoDup (np_unique a).
Proof.
  unfold np_unique. rewrite merge_sort_Permutation. apply NoDup_remove_dups.
Qed.

(** Once all indices below K but one are chosen, [np.setdiff1d] of the
    response set and the choices holds exactly the index that is left. *)
Lemma setdiff1d_one_left (k : Z) (response : list Z) :
  1 ≤ k → NoDup response → Forall (λ x, 0 ≤ x < k) response →
  length response = Z.to_nat (k - 1) →
  ∃ m,
    np_setdiff1d (Array2 (itertools_permutations (np_arange k))) response = [m].
Proof.
  intros Hk Hnodup Hall Hlen.
  set (left := np_setdiff1d _ response).
  assert (∀ x, x ∈ left ↔ 0 ≤ x < k ∧ x ∉ response) as Hleft.
  { intros x. unfold left, np_setdiff1d.
    rewrite list_elem_of_filter, !elem_of_np_unique. cbn [ravel].
    split.
    - intros [? ?%elem_of_permutation_rows]. done.
    - intros [Hx ?]. split; [done|]. apply elem_of_concat.
      exists (np_arange k). split; [by apply elem_of_np_arange|].
      by apply elem_of_permutations_r. }
  assert (response ++ left ≡ₚ np_arange k) as Hperm.
  { apply NoDup_Permutation.
    - apply NoDup_app. repeat split; [done| |].
      + intros x Hx [_ Hnew]%Hleft. done.
      + unfold left, np_setdiff1d. apply NoDup_filter, NoDup_np_unique.
    - apply NoDup_np_arange.
    - intros x. rewrite elem_of_app, Hleft, elem_of_np_arange.
      split; [|destruct (decide (x ∈ response)); tauto].
      intros [Hx|[? _]]; [|done]. by eapply Forall_forall in Hall. }
  apply Permutation_length in Hperm.
  rewrite length_app in Hperm. unfold np_arange in Hperm.
  rewrite length_fmap, length_seq in Hperm.
  destruct left as [|m [|??]]; simpl in Hperm; [lia| |lia]. by exists m.
Qed.

(** Given K-1 lines that are the decimal texts of distinct indices below K,
    none with more digits than the interpreter converts,
    [FullRankingQuery.visualize] returns these indices in the order given,
    followed by the one index that is left, and leaves the lines after
    them. *)
Theorem FullRankingQuery_visualize_ranks (py : interpreter)
    (h : heap) (q : loc) (l : list basics.Trajectory) (selections : list Z)
    (rest : list text) :
  let k := Z.of_nat (length l) in
  slate_state h q l →
  attribute h q attr.response_set
  = Some (Array2 (itertools_permutations (np_arange k))) →
  NoDup selections → Forall (λ x, 0 ≤ x < k) selections →
  Forall (λ x, digits_allowed py (str x)) selections →
  S (length selections) = length l →
  ∃ m out,
    FullRankingQuery_visualize py h q ((str <$> selections) ++ rest)
    = ((inr (selections ++ [m]), out), rest) ∧
    selections ++ [m] ≡ₚ np_arange k.
Proof.
  intros k Hslate Hrs Hnodup Hall Hdigits Hlen.
  pose proof (proj2 Hslate) as HK. fold k in HK.
  destruct (setdiff1d_one_left k selections) as [m Hm];
    [lia|done|done|lia|].
  destruct (ask_ranks_str py h q k rest HK selections 1 [])
    as [out Hranks]; [done|done|done|].
  assert (FullRankingQuery_visualize py h q ((str <$> selections) ++ rest)
          = ((inr (selections ++ [m]), playback l ++ out), rest)) as Hrun.
  { unfold FullRankingQuery_visualize.
    rewrite (play_slate_spec _ _ _ Hslate).
    unfold mbind at 1, IO_bind at 1, writing at 1.
    unfold mbind at 1, IO_bind at 1, writing at 1.
    rewrite (read_attribute _ _ _ _ HK).
    unfold mbind at 1, IO_bind at 1.
    replace (Z.to_nat (k - 1)) with (length selections) by lia.
    rewrite Hranks. cbn [app].
    unfold mbind at 1, IO_bind at 1, writing at 1.
    rewrite (read_attribute _ _ _ _ Hrs).
    unfold mbind at 1, IO_bind at 1, writing at 1.
    rewrite Hm. cbn. by rewrite !app_nil_r. }
  exists m, (playback l ++ out). split; [done|].
  by apply (visualize_permutation_accepted py h q k _ _ _ _ HK Hrs Hrun).
Qed.

Lemma FullRankingQuery_visualize_ranks_witness :
  let h := (FullRankingQuery.new
              (basics.Slate_list [example_trajectory; example_trajectory;
                                  example_trajectory]) []).2 in
  ∃ m out,
    FullRankingQuery_visualize example_interpreter h 0%nat
      ((str <$> [1; 2]) ++ [text_of "later"])
    = ((inr ([1; 2] ++ [m]), out), [text_of "later"]) ∧
    [1; 2] ++ [m] ≡ₚ np_arange 3.
Proof.
  intros h.
  apply (FullRankingQuery_visualize_ranks example_interpreter h 0%nat
           [example_trajectory; example_trajectory; example_trajectory]
           [1; 2] [text_of "later"]).
  - by split.
  - reflexivity.
  - apply (bool_decide_unpack _). reflexivity.
  - repeat constructor; simpl; lia.
  - repeat first [apply Forall_nil_2 | apply Forall_cons_2];
      left; by vm_compute.
  - reflexivity.
Defined.

(** ** Slate assignment *)

(** A [Preference] refers to its query and is not checked again: after a
    slate is assigned to the query, the preference still holds its response
    and the same query, whose response set is now that of the new slate; the
    response is in it only if it is below the new size. *)
Theorem Preference_outlives_slate_assignment (h h1 : heap) (q p : loc)
    (r : Z) (slate : basics.slate_argument) (l : list basics.Trajectory) :
  Preference.new q (R_int r) h = (inr p, h1) →
  slate_items slate = Some l →
  ∃ h2 rs,
    PreferenceQuery.slate_setter q slate h1 = (inr (), h2) ∧
    attribute h2 p attr.response = Some (R_int r) ∧
    attribute h2 p attr.query = Some q ∧
    attribute h2 q attr.response_set = Some rs ∧
    (array_contains_int rs r = true ↔ 0 ≤ r < Z.of_nat (length l)).
Proof.
  rewrite Preference_new_spec. unfold response_new_outcome, attribute.
  destruct (h !! q) as [o|] eqn:Hq; [|done]. simpl.
  destruct (attr.response_set o) as [rs|]; [|done]. cbn [array_contains].
  destruct (array_contains_int rs r); [|done].
  intros [= <- <-] Hl.
  pose proof (lookup_lt_Some _ _ _ Hq) as Hlt.
  assert ((h ++ [with_response (R_int r) (with_query q (empty_object C_Preference))])
            !! q = Some o) as Hq' by (by rewrite lookup_old).
  eexists _, _.
  split; [by apply (PreferenceQuery_slate_setter_spec _ _ _ _ _ Hq' Hl)|].
  rewrite !list_lookup_insert_ne by lia. rewrite lookup_fresh.
  rewrite (lookup_insert_same _ _ _ _ Hq'). simpl.
  repeat (split; [done|]). apply array_contains_int_arange.
Qed.

Lemma Preference_outlives_slate_assignment_witness :
  let h := (PreferenceQuery.new
              (basics.Slate_list [example_trajectory; example_trajectory;
                                  example_trajectory]) []).2 in
  let slate := basics.Slate_list [example_trajectory; example_trajectory] in
  ∃ h2 rs,
    PreferenceQuery.slate_setter 0%nat slate (Preference.new 0%nat (R_int 2) h).2
    = (inr (), h2) ∧
    attribute h2 1%nat attr.response = Some (R_int 2) ∧
    attribute h2 1%nat attr.query = Some 0%nat ∧
    attribute h2 0%nat attr.response_set = Some rs ∧
    (array_contains_int rs 2 = true ↔ 0 ≤ 2 < 2).
Proof.
  intros h slate.
  apply (Preference_outlives_slate_assignment h (Preference.new 0%nat (R_int 2) h).2
           0%nat 1%nat 2 slate [example_trajectory; example_trajectory]
           eq_refl eq_refl).
Defined.

(** A slate assignment changes the attributes [_slate], [K] and
    [response_set] of the query and nothing else: its class and its other
    attributes stay, and so does every other object. *)
Theorem slate_assignment_frame (h : heap) (q : loc) (o : object)
    (slate : basics.slate_argument) (l : list basics.Trajectory)
    (setter : loc → basics.slate_argument → M unit) :
  setter = PreferenceQuery.slate_setter ∨
  setter = WeakComparisonQuery.slate_setter ∨
  setter = FullRankingQuery.slate_setter →
  h !! q = Some o → slate_items slate = Some l →
  ∃ h' o',
    setter q slate h = (inr (), h') ∧
    length h' = length h ∧
    (∀ l', l' ≠ q → h' !! l' = h !! l') ∧
    h' !! q = Some o' ∧
    class_of o' = class_of o ∧
    attr.initial_state o' = attr.initial_state o ∧
    attr.query o' = attr.query o ∧
    attr.response o' = attr.response o ∧
    attr.trajectory o' = attr.trajectory o ∧
    attr.features o' = attr.features o.
Proof.
  intros Hsetter Hq Hl.
  assert (∃ rs, setter q slate h = (inr (), <[q := slated rs l o]> h))
    as [rs ->].
  { destruct Hsetter as [-> | [-> | ->]]; eexists.
    - by apply PreferenceQuery_slate_setter_spec.
    - by apply WeakComparisonQuery_slate_setter_spec.
    - by apply FullRankingQuery_slate_setter_spec. }
  eexists _, _. split; [done|]. split; [apply length_insert|].
  split; [intros l' Hne; by apply list_lookup_insert_ne|].
  split; [by eapply lookup_insert_same|]. done.
Qed.

Lemma slate_assignment_frame_witness :
  let h := (WeakComparisonQuery.new
              (basics.Slate_list [example_trajectory; example_trajectory])
              []).2 in
  ∃ o, h !! 0%nat = Some o ∧ ∃ h' o',
    WeakComparisonQuery.slate_setter 0%nat
      (basics.Slate_list [example_trajectory]) h = (inr (), h') ∧
    length h' = length h ∧
    (∀ l', l' ≠ 0%nat → h' !! l' = h !! l') ∧
    h' !! 0%nat = Some o' ∧
    class_of o' = class_of o ∧
    attr.initial_state o' = attr.initial_state o ∧
    attr.query o' = attr.query o ∧
    attr.response o' = attr.response o ∧
    attr.trajectory o' = attr.trajectory o ∧
    attr.features o' = attr.features o.
Proof.
  intros h. eexists. split; [reflexivity|].
  apply (slate_assignment_frame h 0%nat _
           (basics.Slate_list [example_trajectory]) [example_trajectory]
           WeakComparisonQuery.slate_setter
           (or_intror (or_introl eq_refl)) eq_refl eq_refl).
Defined.



(** ** What [FullRanking] accepts *)

(** Every index below K is at every position of some permutation of
    0..K-1. *)
Lemma exists_row_with (k : Z) (i : nat) (v : Z) :
  (i < Z.to_nat k)%nat → 0 ≤ v < k →
  ∃ row, row ≡ₚ np_arange k ∧ row !! i = Some v.
Proof.
  intros Hi Hv.
  destruct (proj1 (elem_of_Permutation (np_arange k) v)) as [rest Hrest].
  { by apply elem_of_np_arange. }
  assert (i ≤ length rest)%nat as Hlen.
  { apply Permutation_length in Hrest. unfold np_arange in Hrest.
    rewrite length_fmap, length_seq in Hrest. simpl in Hrest. lia. }
  exists (take i rest ++ v :: drop i rest). split.
  - rewrite Hrest, <- Permutation_middle. by rewrite take_drop.
  - apply list_lookup_middle. by rewrite length_take_le.
Qed.

(** The membership test of a response of length K in the response set of a
    full ranking query of size K: some entry of the response is an index
    below K. *)
Lemma array_contains_list_permutations (k : Z) (resp : list Z) :
  length resp = Z.to_nat k →
  ∃ b,
    array_contains_list (Array2 (itertools_permutations (np_arange k))) resp
    = inr b ∧
    (b = true ↔ ∃ i v, resp !! i = Some v ∧ 0 ≤ v < k).
Proof.
  intros Hlen. set (rows := itertools_permutations (np_arange k)).
  assert (∀ row, row ∈ rows ↔ row ≡ₚ np_arange k) as Hrows.
  { intros row. by apply elem_of_permutations_r. }
  unfold array_contains_list.
  assert (mapM (λ row, eq_broadcast row resp) rows
          = Some ((λ row, zip_with Z.eqb row resp) <$> rows)) as ->.
  { apply mapM_Some. apply Forall2_fmap_r, Forall_Forall2_diag, Forall_forall.
    intros row Hrow%Hrows. apply eq_broadcast_same_length.
    rewrite Hrow, Hlen. unfold np_arange. by rewrite length_fmap, length_seq. }
  eexists. split; [done|].
  rewrite any_true, elem_of_concat. split.
  - intros (bs & Htrue & Hbs).
    apply list_elem_of_fmap in Hbs as (row & -> & Hrow).
    apply elem_of_lookup_zip_with in Htrue as (i & y & z & Heq & Hy & Hz).
    symmetry in Heq. apply Z.eqb_eq in Heq as ->.
    exists i, z. split; [done|].
    apply elem_of_np_arange. rewrite <- (proj1 (Hrows row) Hrow).
    by eapply list_elem_of_lookup_2.
  - intros (i & v & Hi & Hv).
    destruct (exists_row_with k i v) as (row & Hrow & Hrowi); [|done|].
    { rewrite <- Hlen. by eapply lookup_lt_Some. }
    exists (zip_with Z.eqb row resp). split.
    + apply elem_of_lookup_zip_with. exists i, v, v.
      by rewrite Z.eqb_refl.
    + apply list_elem_of_fmap. exists row. split; [done|]. by apply Hrows.
Qed.

(** [FullRanking] accepts a response of length K for a query of size K
    exactly when at least one of its entries is an index in [0, K); a
    response without any such entry fails with an assertion error. *)
Theorem FullRanking_accepts_iff_some_index (h : heap) (q : loc) (k : Z)
    (resp : list Z) :
  attribute h q attr.response_set
  = Some (Array2 (itertools_permutations (np_arange k))) →
  length resp = Z.to_nat k →
  ((∃ p h', FullRanking.new q resp h = (inr p, h') ∧
            attribute h' p attr.response = Some (R_list resp))
   ↔ ∃ i v, resp !! i = Some v ∧ 0 ≤ v < k) ∧
  ((∀ v, v ∈ resp → ¬ (0 ≤ v < k)) →
   ∃ h', FullRanking.new q resp h = (inl AssertionError, h')).
Proof.
  intros Hrs Hlen. rewrite FullRanking_new_spec.
  unfold response_new_outcome. rewrite Hrs.
  destruct (array_contains_list_permutations k resp Hlen) as (b & -> & Hb).
  split; [split|].
  - intros (p & h' & Hnew & _). apply Hb. by destruct b.
  - intros ->%Hb. eexists _, _. split; [done|]. by rewrite attribute_fresh.
  - intros Hnone. destruct b; [|by eexists].
    destruct (proj1 Hb eq_refl) as (i & v & Hi & Hv).
    destruct (Hnone v); [|done]. by eapply list_elem_of_lookup_2.
Qed.

Lemma FullRanking_accepts_iff_some_index_witness :
  let h := (FullRankingQuery.new
              (basics.Slate_list [example_trajectory; example_trajectory;
                                  example_trajectory]) []).2 in
  ((∃ p h', FullRanking.new 0%nat [7; 7; 2] h = (inr p, h') ∧
            attribute h' p attr.response = Some (R_list [7; 7; 2]))
   ↔ ∃ i v, [7; 7; 2] !! i = Some v ∧ 0 ≤ v < 3) ∧
  ((∀ v, v ∈ [7; 7; 2] → ¬ (0 ≤ v < 3)) →
   ∃ h', FullRanking.new 0%nat [7; 7; 2] h = (inl AssertionError, h')).
Proof.
  intros h.
  apply (FullRanking_accepts_iff_some_index h 0%nat 3 [7; 7; 2]
           eq_refl eq_refl).
Defined.

Lemma elem_of_map {A B} (f : A → B) (l : list A) (y : B) :
  y ∈ map f l ↔ ∃ x, y = f x ∧ x ∈ l.
Proof.
  rewrite list_elem_of_In, in_map_iff. split.
  - intros (x & <- & Hx). exists x. by rewrite list_elem_of_In.
  - intros (x & -> & Hx). exists x. by rewrite <- list_elem_of_In.
Qed.

(** A response with a single entry is compared with every entry of the
    response set: [FullRanking] accepts it for a query of size K >= 2
    exactly when the entry is an index in [0, K). *)
Theorem FullRanking_accepts_single_index (h : heap) (q : loc) (k v : Z) :
  attribute h q attr.response_set
  = Some (Array2 (itertools_permutations (np_arange k))) →
  2 ≤ k →
  (0 ≤ v < k →
   ∃ p h', FullRanking.new q [v] h = (inr p, h') ∧
           attribute h' p attr.response = Some (R_list [v])) ∧
  (¬ (0 ≤ v < k) →
   ∃ h', FullRanking.new q [v] h = (inl AssertionError, h')).
Proof.
  intros Hrs Hk. rewrite FullRanking_new_spec.
  unfold response_new_outcome. rewrite Hrs.
  set (rows := itertools_permutations (np_arange k)).
  assert (∀ row, row ∈ rows ↔ row ≡ₚ np_arange k) as Hrows.
  { intros row. by apply elem_of_permutations_r. }
  assert (array_contains_list (Array2 rows) [v]
          = inr (any (concat ((λ row : list Z, map (λ x, x =? v) row) <$> rows))))
    as ->.
  { unfold array_contains_list.
    assert (mapM (λ row, eq_broadcast row [v]) rows
            = Some ((λ row : list Z, map (λ x, x =? v) row) <$> rows))
      as ->; [|done].
    apply mapM_Some. apply Forall2_fmap_r, Forall_Forall2_diag, Forall_forall.
    intros row Hrow%Hrows. unfold eq_broadcast.
    apply Permutation_length in Hrow. unfold np_arange in Hrow.
    rewrite length_fmap, length_seq in Hrow.
    rewrite (proj2 (Nat.eqb_neq _ _)); [done|]. simpl. lia. }
  assert (any (concat ((λ row : list Z, map (λ x, x =? v) row) <$> rows))
          = true ↔ 0 ≤ v < k) as Hany.
  { rewrite any_true, elem_of_concat. split.
    - intros (bs & Htrue & Hbs).
      apply list_elem_of_fmap in Hbs as (row & -> & Hrow).
      apply elem_of_map in Htrue as (x & Heq & Hx).
      symmetry in Heq. apply Z.eqb_eq in Heq as ->.
      apply elem_of_np_arange. by rewrite <- (proj1 (Hrows row) Hrow).
    - intros Hv. exists (map (λ x, x =? v) (np_arange k)). split.
      + apply elem_of_map. exists v.
        split; [by rewrite Z.eqb_refl|by apply elem_of_np_arange].
      + apply list_elem_of_fmap. exists (np_arange k).
        split; [done|]. by apply Hrows. }
  split; intros Hv.
  - apply Hany in Hv as ->. eexists _, _. split; [done|].
    by rewrite attribute_fresh.
  - rewrite <- Hany in Hv. apply not_true_is_false in Hv as ->. by eexists.
Qed.

Lemma FullRanking_accepts_single_index_witness :
  let h := (FullRankingQuery.new
              (basics.Slate_list [example_trajectory; example_trajectory;
                                  example_trajectory]) []).2 in
  ∃ p h', FullRanking.new 0%nat [1] h = (inr p, h') ∧
          attribute h' p attr.response = Some (R_list [1]).
Proof.
  intros h.
  apply (FullRanking_accepts_single_index h 0%nat 3 1 eq_refl); lia.
Defined.

(** ** Demonstrations and the dimension of states *)

(** When the [initial_state] of the given query and the first state of the
    trajectory have different dimensions, neither of them 1, the comparison
    cannot combine them: the construction of the [Demonstration] fails with
    [ValueError], and no assertion is reached. *)
Theorem Demonstration_dimension_mismatch (h : heap) (t : basics.Trajectory)
    (q : loc) (given : state) :
  let first := (basics.Trajectory_getitem0 t).1 in
  attribute h q attr.initial_state = Some given →
  length given ≠ length first →
  length given ≠ 1%nat → length first ≠ 1%nat →
  Demonstration.new t (Some q) h
  = (inl ValueError, h ++ [empty_object C_Demonstration]).
Proof.
  intros first Hq Hne Hg Hf. unfold basics.Trajectory_getitem0 in first.
  rewrite (Demonstration_new_Some _ _ _ _ Hq). fold first.
  unfold np_isclose. rewrite (proj2 (Nat.eqb_neq _ _)) by done.
  destruct given as [|x [|??]], first as [|y [|??]]; simpl in *; done.
Qed.

Lemma Demonstration_dimension_mismatch_witness :
  let h := (DemonstrationQuery.new [1%float; 2%float; 3%float] []).2 in
  Demonstration.new example_trajectory (Some 0%nat) h
  = (inl ValueError, h ++ [empty_object C_Demonstration]).
Proof.
  intros h.
  apply (Demonstration_dimension_mismatch h example_trajectory 0%nat
           [1%float; 2%float; 3%float] eq_refl); simpl; lia.
Defined.

Lemma np_all_true (bs : list bool) : np_all bs = true ↔ Forall (.= true) bs.
Proof.
  unfold np_all. induction bs as [|b bs IH]; simpl.
  - split; [constructor|done].
  - rewrite andb_true_iff, IH, Forall_cons. done.
Qed.

(** A state with a single entry is compared with every entry of the first
    state: [Demonstration] accepts a query with such an [initial_state]
    exactly when that entry is close to each of them. *)
Theorem Demonstration_single_entry_state (h : heap) (t : basics.Trajectory)
    (q : loc) (x : float) :
  let first := (basics.Trajectory_getitem0 t).1 in
  attribute h q attr.initial_state = Some [x] →
  length first ≠ 1%nat →
  (Forall (λ y, isclose x y = true) first →
   ∃ d h', Demonstration.new t (Some q) h = (inr d, h') ∧
           attribute h' d attr.query = Some q) ∧
  (¬ Forall (λ y, isclose x y = true) first →
   ∃ h', Demonstration.new t (Some q) h = (inl AssertionError, h')).
Proof.
  intros first Hq Hlen. unfold basics.Trajectory_getitem0 in first.
  rewrite (Demonstration_new_Some _ _ _ _ Hq). fold first.
  unfold np_isclose. cbn [length].
  rewrite (proj2 (Nat.eqb_neq _ _)) by done.
  assert (np_all (map (λ y, isclose x y) first) = true
          ↔ Forall (λ y, isclose x y = true) first) as Hall.
  { rewrite np_all_true. clear. induction first as [|y first IH]; simpl.
    - split; constructor.
    - by rewrite !Forall_cons, IH. }
  split; intros Hclose.
  - apply Hall in Hclose as ->. eexists _, _. split; [done|].
    by rewrite attribute_fresh.
  - rewrite <- Hall in Hclose. apply not_true_is_false in Hclose as ->.
    by eexists.
Qed.

Lemma Demonstration_single_entry_state_witness :
  let h := (DemonstrationQuery.new [1.5%float] []).2 in
  ∃ h', Demonstration.new example_trajectory (Some 0%nat) h
        = (inl AssertionError, h').
Proof.
  intros h.
  apply (Demonstration_single_entry_state h example_trajectory 0%nat
           1.5%float eq_refl).
  - simpl. lia.
  - intros Hall. apply Forall_cons in Hall as [Hclose _].
    vm_compute in Hclose. discriminate.
Defined.

(** ** Not a number *)

Lemma SFeqb_nan_r (s : SpecFloat.spec_float) :
  SpecFloat.SFeqb s SpecFloat.S754_nan = false.
Proof. by destruct s. Qed.

Lemma SFeqb_irreflexive_nan (s : SpecFloat.spec_float) :
  SpecFloat.SFeqb s s = false → s = SpecFloat.S754_nan.
Proof.
  destruct s as [b|b| |b m e]; try done.
  - by destruct b.
  - unfold SpecFloat.SFeqb, SpecFloat.SFcompare.
    rewrite Z.compare_refl, Pos.compare_cont_refl. by destruct b.
Qed.

(** Nothing is close to a NaN. *)
Lemma isclose_nan (x y : float) :
  PrimFloat.is_nan y = true → isclose x y = false.
Proof.
  intros Hnan. unfold isclose, PrimFloat.is_finite. rewrite Hnan.
  rewrite andb_false_r. unfold PrimFloat.is_nan in Hnan.
  apply negb_true_iff in Hnan. rewrite FloatAxioms.eqb_spec in Hnan.
  apply SFeqb_irreflexive_nan in Hnan.
  by rewrite FloatAxioms.eqb_spec, Hnan, SFeqb_nan_r.
Qed.

(** When the first state of a trajectory holds a NaN, no query is accepted
    with it, whatever its [initial_state] of that dimension: the construction
    of the [Demonstration] fails with an assertion error, also for the state
    of the trajectory itself. *)
Theorem Demonstration_rejects_nan (h : heap) (t : basics.Trajectory)
    (q : loc) (given : state) (y : float) :
  let first := (basics.Trajectory_getitem0 t).1 in
  attribute h q attr.initial_state = Some given →
  length given = length first →
  y ∈ first → PrimFloat.is_nan y = true →
  ∃ h', Demonstration.new t (Some q) h = (inl AssertionError, h').
Proof.
  intros first Hq Hlen Hy Hnan. unfold basics.Trajectory_getitem0 in first.
  rewrite (Demonstration_new_Some _ _ _ _ Hq). fold first.
  unfold np_isclose. rewrite Hlen, Nat.eqb_refl.
  destruct (np_all (zip_with isclose given first)) eqn:Hall; [|by eexists].
  apply np_all_zip_with_isclose in Hall; [|done].
  apply list_elem_of_lookup in Hy as [i Hi].
  destruct (Forall2_lookup_r _ _ _ _ _ Hall Hi) as (x & _ & Hclose).
  by rewrite isclose_nan in Hclose.
Qed.

Lemma Demonstration_rejects_nan_witness :
  let t := {| basics.traj_first := ([1%float; nan], [0%float]);
              basics.traj_rest := [];
              basics.features := [] |} in
  let h := (Demonstration.new t None []).2 in
  ∃ h', Demonstration.new t (Some 1%nat) h = (inl AssertionError, h').
Proof.
  intros t h.
  apply (Demonstration_rejects_nan h t 1%nat [1%float; nan] nan
           eq_refl eq_refl).
  - right. left.
  - reflexivity.
Defined.
